(** * Pulse video pipeline: processing queue, media inspection and
      sensitivity classifier

    Shallow embedding of
      - backend/src/services/processingQueue.js  (VideoProcessingQueue),
      - backend/src/services/videoProcessing.js  (extractMetadata,
        generateThumbnail, analyzeSensitivity, processVideo),
      - backend/src/socket.js                    (emitProcessing* helpers),
    followed by the properties of the specification that concern them.

    Conventions of the embedding.
      - JavaScript numbers that carry durations, sizes and ratios are
        rationals ([Q]); pixel counts, percentages and the concurrency limit
        are integers ([Z]).  Floating-point rounding, NaN and [undefined]
        numbers are not modelled.
      - Strings are [string]; a video id is the string produced by
        [video._id.toString()].
      - The event loop is a step function over an explicit queue state that
        also holds the suspended continuations of [processNext]; any
        suspended continuation may be the next to run.  Listeners of the
        queue's events do not call back into the queue; its [console.log]
        lines are left out.
      - The job body runs in a state-and-exception monad over a [World] that
        holds the record store and the logs of every observable effect; the
        answers of the database, the blob store, the file system and ffmpeg
        are given by an [Env]. *)

From Stdlib Require Import Ascii ZArith QArith Qround.
From stdpp Require Import base gmap sets list strings.
From Stdlib Require Import Lia Lqa.

Local Open Scope string_scope.

(* ================================================================== *)
(** * JavaScript primitives used by the sources                        *)
(* ================================================================== *)

Module JS.

(** [a < b] on numbers. *)
Definition Qltb (a b : Q) : bool := negb (Qle_bool b a).

(** [Math.round]: nearest integer, halves towards +infinity. *)
Definition round (x : Q) : Z := Qfloor (x + (1 # 2)).

(** [Math.trunc]: drop the fractional part (towards zero). *)
Definition trunc (x : Q) : Z := Z.quot (Qnum x) (Zpos (Qden x)).

(** [Math.min] on two numbers. *)
Definition min (a b : Q) : Q := if Qle_bool a b then a else b.

(** [String.prototype.includes]. *)
Fixpoint includes (needle hay : string) : bool :=
  if String.prefix needle hay then true
  else match hay with
       | EmptyString => false
       | String _ rest => includes needle rest
       end.

(** [String.prototype.toLowerCase], on the ASCII letters. *)
Definition lowerChar (c : Ascii.ascii) : Ascii.ascii :=
  let n := Ascii.nat_of_ascii c in
  if (65 <=? n)%nat && (n <=? 90)%nat then Ascii.ascii_of_nat (n + 32) else c.

Fixpoint toLowerCase (s : string) : string :=
  match s with
  | EmptyString => EmptyString
  | String c rest => String (lowerChar c) (toLowerCase rest)
  end.

(** Truthiness of a string value: only the empty string is falsy. *)
Definition truthy (s : string) : bool := negb (String.eqb s "").

End JS.

(* ================================================================== *)
(** * Media inspection and the sensitivity classifier (videoProcessing.js) *)
(* ================================================================== *)

Module Media.

Inductive Level := Safe | Unknown | Flagged.

Definition Level_eqb (a b : Level) : bool :=
  match a, b with
  | Safe, Safe | Unknown, Unknown | Flagged, Flagged => true
  | _, _ => false
  end.

(** What ffprobe reports. *)
Record Stream := mkStream {
  codec_type : string;
  codec_name : string;
  s_width : Z;
  s_height : Z;
  r_frame_rate : Q;   (* the value of eval(videoStream.r_frame_rate) *)
  s_bit_rate : Q;
  sample_rate : Z;
  s_channels : Z
}.

Record Format := mkFormat {
  f_duration : Q;
  f_size : Q;
  f_bit_rate : Q;
  format_name : string
}.

Record Probe := mkProbe {
  streams : list Stream;
  p_format : Format
}.

(** What [extractMetadata] resolves to. *)
Record VideoInfo := mkVideoInfo {
  codec : string;
  width : Z;
  height : Z;
  frameRate : Q;
  v_bitRate : Q
}.

Record AudioInfo := mkAudioInfo {
  a_codec : string;
  sampleRate : Z;
  channels : Z
}.

Record Metadata := mkMetadata {
  duration : Q;
  size : Q;
  bitRate : Q;
  format : string;
  video : option VideoInfo;
  audio : option AudioInfo
}.

(** The body of the ffprobe callback of [extractMetadata] when ffprobe gave
    no error: the result is the rejection message or the resolved value. *)
Definition extractMetadataOf (metadata : Probe) : string + Metadata :=
  let videoStream := List.find (λ s, String.eqb (codec_type s) "video") (streams metadata) in
  let audioStream := List.find (λ s, String.eqb (codec_type s) "audio") (streams metadata) in
  match videoStream with
  | None => inl "No video stream found"
  | Some videoStream =>
      inr (mkMetadata
             (f_duration (p_format metadata))
             (f_size (p_format metadata))
             (f_bit_rate (p_format metadata))
             (format_name (p_format metadata))
             (Some (mkVideoInfo (codec_name videoStream) (s_width videoStream)
                      (s_height videoStream) (r_frame_rate videoStream)
                      (s_bit_rate videoStream)))
             (match audioStream with
              | Some audioStream =>
                  Some (mkAudioInfo (codec_name audioStream) (sample_rate audioStream)
                          (s_channels audioStream))
              | None => None
              end))
  end.

(** The local variables of [analyzeSensitivity].  [divisions] is a ghost
    variable: the operands of every [/] the function has evaluated.  The
    [analyzedAt] timestamp of the result is left out. *)
Record Analysis := mkAnalysis {
  flags : list string;
  sensitivity : Level;
  divisions : list (Q * Q)
}.

Definition push (flag : string) (a : Analysis) : Analysis :=
  mkAnalysis (flags a ++ [flag]) (sensitivity a) (divisions a).

Definition setSensitivity (l : Level) (a : Analysis) : Analysis :=
  mkAnalysis (flags a) l (divisions a).

Definition divide (x y : Q) (a : Analysis) : Q * Analysis :=
  ((x / y)%Q, mkAnalysis (flags a) (sensitivity a) (divisions a ++ [(x, y)])).

Definition sensitiveKeywords : list string :=
  ["explicit"; "nsfw"; "adult"; "18+"; "mature"; "violence"; "graphic"].

Definition shortFlag : string := "Very short duration (< 5 seconds)".
Definition longFlag : string := "Very long duration (> 1 hour)".
Definition aspectFlag : string := "Unusual aspect ratio".
Definition keywordFlag (keyword : string) : string :=
  "Contains sensitive keyword: " ++ keyword.
Definition lowBitrateFlag : string := "Unusually low bitrate/quality".
Definition noAudioFlag : string := "No audio stream in video > 30s".

(** Rule 1: duration. *)
Definition rule1 (metadata : Metadata) (a : Analysis) : Analysis :=
  if JS.Qltb (duration metadata) 5 then push shortFlag a
  else if JS.Qltb 3600 (duration metadata) then push longFlag a
  else a.

(** Rule 2: resolution. *)
Definition rule2 (metadata : Metadata) (a : Analysis) : Analysis :=
  let width := match video metadata with Some v => width v | None => 0%Z end in
  let height := match video metadata with Some v => height v | None => 0%Z end in
  if (0 <? width)%Z && (0 <? height)%Z then
    let '(aspectRatio, a) := divide (inject_Z width) (inject_Z height) a in
    if JS.Qltb aspectRatio (1 # 2) || JS.Qltb 3 aspectRatio then push aspectFlag a
    else a
  else a.

(** Rule 3: the keyword loop, left at the first match. *)
Fixpoint keywordLoop (keywords : list string) (textToCheck : string) (a : Analysis) : Analysis :=
  match keywords with
  | [] => a
  | keyword :: rest =>
      if JS.includes keyword textToCheck then
        setSensitivity Flagged (push (keywordFlag keyword) a)
      else keywordLoop rest textToCheck a
  end.

Definition textToCheck (title description : option string) : string :=
  JS.toLowerCase (default "" title ++ " " ++ default "" description).

Definition rule3 (title description : option string) (a : Analysis) : Analysis :=
  keywordLoop sensitiveKeywords (textToCheck title description) a.

(** Rule 4: file size relative to duration. *)
Definition rule4 (metadata : Metadata) (a : Analysis) : Analysis :=
  if JS.Qltb 0 (duration metadata) then
    let '(sizePerSecond, a) := divide (size metadata) (duration metadata) a in
    if JS.Qltb sizePerSecond 10000 then push lowBitrateFlag a else a
  else a.

(** Rule 5: no audio stream. *)
Definition rule5 (metadata : Metadata) (a : Analysis) : Analysis :=
  if negb (bool_decide (is_Some (audio metadata))) && JS.Qltb 30 (duration metadata)
  then push noAudioFlag a
  else a.

(** The two closing [if] statements. *)
Definition finalLevel (a : Analysis) : Analysis :=
  let a :=
    if (3 <=? length (flags a))%nat && negb (Level_eqb (sensitivity a) Flagged)
    then setSensitivity Flagged a else a in
  if (length (flags a) =? 0)%nat then setSensitivity Safe a
  else if negb (Level_eqb (sensitivity a) Flagged) then setSensitivity Unknown a
  else a.

(** The state of the locals once the five rules have run. *)
Definition applyRules (metadata : Metadata) (title description : option string) : Analysis :=
  rule5 metadata
    (rule4 metadata
       (rule3 title description
          (rule2 metadata
             (rule1 metadata (mkAnalysis [] Safe []))))).

Definition analyzeSensitivity (metadata : Metadata) (title description : option string) : Analysis :=
  finalLevel (applyRules metadata title description).

(** Whether some keyword of the list occurs in the text. *)
Definition keywordMatch (title description : option string) : bool :=
  existsb (λ keyword, JS.includes keyword (textToCheck title description)) sensitiveKeywords.

(** The final level as the specification words it. *)
Definition specFinalLevel (forcedByKeyword : bool) (flagCount : nat) : Level :=
  if forcedByKeyword then Flagged
  else if (flagCount =? 0)%nat then Safe
  else if (3 <=? flagCount)%nat then Flagged
  else Unknown.

(** [storedFilename.replace(/\.[^.]+$/, '.jpg')]: the last dot and what
    follows it, when something follows it, become ".jpg". *)
Fixpoint hasDot (s : string) : bool :=
  match s with
  | EmptyString => false
  | String c rest => Ascii.eqb c "."%char || hasDot rest
  end.

Fixpoint replaceExtension (s : string) : string :=
  match s with
  | EmptyString => EmptyString
  | String c rest =>
      if Ascii.eqb c "."%char && negb (hasDot rest) && negb (String.eqb rest "")
      then ".jpg"
      else String c (replaceExtension rest)
  end.

(** A timestamp is near the midpoint when it is no farther from it than
    from the nearer end of the video: it lies in the middle half. *)
Definition nearMidpoint (d t : Q) : Prop := (d / 4 <= t)%Q ∧ (t <= 3 * d / 4)%Q.

(** The first keyword of the list that occurs in a text. *)
Definition firstKeyword (text : string) : option string :=
  List.find (λ keyword, JS.includes keyword text) sensitiveKeywords.

(** The condition under which rule 2 raises its flag. *)
Definition aspectCondition (metadata : Metadata) : bool :=
  let width := match video metadata with Some v => width v | None => 0%Z end in
  let height := match video metadata with Some v => height v | None => 0%Z end in
  (0 <? width)%Z && (0 <? height)%Z
  && (JS.Qltb (inject_Z width / inject_Z height) (1 # 2)
      || JS.Qltb 3 (inject_Z width / inject_Z height)).

End Media.

(* ================================================================== *)
(** * The job body (processingQueue.js, processJob) and the processing of
      one video (videoProcessing.js, processVideo)                      *)
(* ================================================================== *)

Module Pipeline.

Inductive Status := Uploaded | InProcessing | Ready | Failed.

Record Resolution := mkResolution {
  res_width : Z;
  res_height : Z
}.

(** A Video document (models/Video.js), with the fields the pipeline reads
    or writes. *)
Record Video := mkVideo {
  _id : string;
  title : string;
  description : option string;
  ownerUserId : string;
  status : Status;
  sensitivity : Media.Level;
  storedFilename : string;
  gridFsFileId : option string;
  duration : option Z;
  resolution : option Resolution;
  codec : option string;
  format : option string;
  thumbnailFilename : option string;
  sensitivityFlags : list string;
  processingError : option string
}.

Definition set_status (st : Status) (v : Video) : Video :=
  mkVideo (_id v) (title v) (description v) (ownerUserId v) st (sensitivity v)
    (storedFilename v) (gridFsFileId v) (duration v) (resolution v) (codec v)
    (format v) (thumbnailFilename v) (sensitivityFlags v) (processingError v).

Definition set_processingError (e : string) (v : Video) : Video :=
  mkVideo (_id v) (title v) (description v) (ownerUserId v) (status v) (sensitivity v)
    (storedFilename v) (gridFsFileId v) (duration v) (resolution v) (codec v)
    (format v) (thumbnailFilename v) (sensitivityFlags v) (Some e).

(** The value [processVideo] resolves to. *)
Record ResultMetadata := mkResultMetadata {
  r_duration : Z;
  r_resolution : Resolution;
  r_codec : string;
  r_format : string;
  r_bitRate : Q;
  hasAudio : bool
}.

Inductive ProcessResult :=
| Success (metadata : ResultMetadata) (thumbnail : string)
          (thumbnailGridFsFileId : string)
          (sensitivity : Media.Level) (sensitivityFlags : list string)
| Failure (error : string).

(** The assignments of the success branch of [processJob], lines 149-156. *)
Definition applyResult (metadata : ResultMetadata) (thumbnail : string)
    (sens : Media.Level) (sensFlags : list string) (v : Video) : Video :=
  mkVideo (_id v) (title v) (description v) (ownerUserId v) Ready sens
    (storedFilename v) (gridFsFileId v)
    (Some (r_duration metadata)) (Some (r_resolution metadata))
    (Some (r_codec metadata)) (Some (r_format metadata))
    (Some thumbnail) sensFlags (processingError v).

(** Messages pushed to the owner's room (socket.js); timestamps left out. *)
Inductive Notification :=
| ProgressMsg (room videoId : string) (percent : Z)
| StatusMsg (room videoId : string) (st : Status)
            (sens : option Media.Level) (sensFlags : list string)
| ErrorMsg (room videoId : string) (error : string).

(** Events the queue object emits from the job body. *)
Inductive JobEvent :=
| SuccessEvent (videoId : string) (result : ProcessResult)
| FailedEvent (videoId : string) (error : string)
| ErrorEvent (videoId : string) (error : string).

Inductive LogLine :=
| ConsoleLog (msg : string)
| ConsoleWarn (msg : string)
| ConsoleError (msg : string).

(** Calls that leave the process: blob store, file system, ffmpeg. *)
Inductive Call :=
| DownloadToBuffer (fileId : option string)
| WriteFile (path : string)
| Ffprobe (path : string)
| Screenshots (videoPath outputPath : string) (timestamp : Q)
| ReadFile (path : string)
| UploadToGridFS (filename : string)
| Unlink (path : string).

(** A blob store download or a media inspector invocation. *)
Definition isBlobOrInspectorCall (c : Call) : bool :=
  match c with
  | DownloadToBuffer _ | Ffprobe _ | Screenshots _ _ _ | UploadToGridFS _ => true
  | WriteFile _ | ReadFile _ | Unlink _ => false
  end.

(** Everything the job body can observe or change. *)
Record World := mkWorld {
  store : gmap string Video;
  findCalls : nat;
  saveCalls : nat;
  notifications : list Notification;
  events : list JobEvent;
  console : list LogLine;
  calls : list Call
}.

(** What the surroundings answer.  The temporary paths stand for the values
    built from [os.tmpdir()], [Date.now()] and [path.extname]. *)
Record Env := mkEnv {
  io : bool;                                  (* this.io is not null *)
  hasErrorListener : bool;                    (* a listener for 'error' is registered *)
  findByIdFault : nat → option string;        (* the k-th findById rejects *)
  saveFault : nat → option string;            (* the k-th save rejects *)
  tempVideoPath : string;
  tempThumbnailPath : string;
  downloadToBuffer : option string → string + string;
  writeFile : string → option string;
  ffprobe : string → string + Media.Probe;
  screenshots : string → string → Q → option string;
  readFile : string → string + string;
  uploadToGridFS : string → string → string + string;
  unlink : string → option string
}.

(** State and exceptions: a computation ends in a world with either the
    message of the error thrown or a value. *)
Definition M (A : Type) : Type := World → World * (string + A).

Definition ret {A} (a : A) : M A := λ w, (w, inr a).
Definition throw {A} (e : string) : M A := λ w, (w, inl e).
Definition bind {A B} (m : M A) (k : A → M B) : M B :=
  λ w, match m w with
       | (w', inl e) => (w', inl e)
       | (w', inr a) => k a w'
       end.
Definition tryCatch {A} (m : M A) (handler : string → M A) : M A :=
  λ w, match m w with
       | (w', inl e) => handler e w'
       | (w', inr a) => (w', inr a)
       end.

Notation "'let*' x ':=' m 'in' k" := (bind m (λ x, k))
  (at level 10, x name, m at level 99, k at level 200).
Notation "m ';;' k" := (bind m (λ _, k))
  (at level 100, k at level 200, right associativity).

Definition logLine (l : LogLine) : M unit :=
  λ w, (mkWorld (store w) (findCalls w) (saveCalls w) (notifications w)
          (events w) (console w ++ [l]) (calls w), inr tt).

Definition notify (n : Notification) : M unit :=
  λ w, (mkWorld (store w) (findCalls w) (saveCalls w) (notifications w ++ [n])
          (events w) (console w) (calls w), inr tt).

Definition emitEvent (e : JobEvent) : M unit :=
  λ w, (mkWorld (store w) (findCalls w) (saveCalls w) (notifications w)
          (events w ++ [e]) (console w) (calls w), inr tt).

Definition recordCall (c : Call) : M unit :=
  λ w, (mkWorld (store w) (findCalls w) (saveCalls w) (notifications w)
          (events w) (console w) (calls w ++ [c]), inr tt).

(** Turn an answer of the surroundings into a value or a thrown error. *)
Definition answer {A} (r : string + A) : M A :=
  match r with
  | inl e => throw e
  | inr a => ret a
  end.

Definition outcome (r : option string) : M unit :=
  match r with
  | Some e => throw e
  | None => ret tt
  end.

Section WithEnv.
Variable env : Env.

(** [Video.findById(videoId)]. *)
Definition findById (videoId : string) : M (option Video) :=
  λ w, let w' := mkWorld (store w) (S (findCalls w)) (saveCalls w)
                   (notifications w) (events w) (console w) (calls w) in
       match findByIdFault env (findCalls w) with
       | Some e => (w', inl e)
       | None => (w', inr (store w !! videoId))
       end.

(** [video.save()]. *)
Definition save (video : Video) : M unit :=
  λ w, match saveFault env (saveCalls w) with
       | Some e =>
           (mkWorld (store w) (findCalls w) (S (saveCalls w))
              (notifications w) (events w) (console w) (calls w), inl e)
       | None =>
           (mkWorld (<[_id video := video]> (store w)) (findCalls w) (S (saveCalls w))
              (notifications w) (events w) (console w) (calls w), inr tt)
       end.

(** socket.js *)
Definition emitProcessingProgress (userId videoId : string) (percent : Q) : M unit :=
  if negb (io env) then
    logLine (ConsoleWarn "Socket.io not initialized, skipping progress emission")
  else
    let userRoom := "user:" ++ userId in
    notify (ProgressMsg userRoom videoId (JS.round percent)) ;;
    logLine (ConsoleLog ("Emitted progress to " ++ userRoom ++ ":")).

Definition emitProcessingStatus (userId videoId : string) (st : Status)
    (sens : option Media.Level) (sensFlags : list string) : M unit :=
  if negb (io env) then
    logLine (ConsoleWarn "Socket.io not initialized, skipping status emission")
  else
    let userRoom := "user:" ++ userId in
    notify (StatusMsg userRoom videoId st sens sensFlags) ;;
    logLine (ConsoleLog ("Emitted status to " ++ userRoom ++ ":")).

Definition emitProcessingError (userId videoId error : string) : M unit :=
  if negb (io env) then
    logLine (ConsoleWarn "Socket.io not initialized, skipping error emission")
  else
    let userRoom := "user:" ++ userId in
    notify (ErrorMsg userRoom videoId error) ;;
    logLine (ConsoleLog ("Emitted error to " ++ userRoom ++ ":")).

(** [this.emit('error', videoId, error)]: an EventEmitter without a
    listener for 'error' throws instead. *)
Definition emitErrorEvent (videoId error : string) : M unit :=
  if hasErrorListener env then emitEvent (ErrorEvent videoId error)
  else throw ("Unhandled error. ('" ++ videoId ++ "')").

(** gridfsStorage.downloadToBuffer *)
Definition callDownloadToBuffer (fileId : option string) : M string :=
  recordCall (DownloadToBuffer fileId) ;;
  match downloadToBuffer env fileId with
  | inl e => throw ("Failed to download from GridFS: " ++ e)
  | inr buffer => ret buffer
  end.

Definition callWriteFile (path : string) : M unit :=
  recordCall (WriteFile path) ;; outcome (writeFile env path).

Definition callReadFile (path : string) : M string :=
  recordCall (ReadFile path) ;; answer (readFile env path).

Definition callUnlink (path : string) : M unit :=
  recordCall (Unlink path) ;; outcome (unlink env path).

(** gridfsStorage.uploadToGridFS *)
Definition callUploadToGridFS (buffer filename : string) : M string :=
  recordCall (UploadToGridFS filename) ;;
  match uploadToGridFS env buffer filename with
  | inl e => throw ("GridFS upload failed: " ++ e)
  | inr fileId => ret fileId
  end.

Definition extractMetadata (videoPath : string) : M Media.Metadata :=
  recordCall (Ffprobe videoPath) ;;
  match ffprobe env videoPath with
  | inl e => throw ("Failed to extract metadata: " ++ e)
  | inr metadata => answer (Media.extractMetadataOf metadata)
  end.

Definition generateThumbnail (videoPath outputPath : string) (timestamp : Q) : M string :=
  recordCall (Screenshots videoPath outputPath timestamp) ;;
  match screenshots env videoPath outputPath timestamp with
  | Some e => throw ("Failed to generate thumbnail: " ++ e)
  | None => ret outputPath
  end.

(** Reading [metadata.video.width] and its siblings throws a TypeError when
    [metadata.video] is missing. *)
Definition videoOf (metadata : Media.Metadata) : M Media.VideoInfo :=
  match Media.video metadata with
  | Some v => ret v
  | None => throw "Cannot read properties of undefined (reading 'width')"
  end.

Definition processVideo (video : Video) : M ProcessResult :=
  tryCatch
    (logLine (ConsoleLog "Downloading video from GridFS") ;;
     let* videoBuffer := callDownloadToBuffer (gridFsFileId video) in
     callWriteFile (tempVideoPath env) ;;
     let* metadata := extractMetadata (tempVideoPath env) in
     generateThumbnail (tempVideoPath env) (tempThumbnailPath env)
       (JS.min 1 (Media.duration metadata / 2)) ;;
     let* thumbnailBuffer := callReadFile (tempThumbnailPath env) in
     let thumbnailFilename := "thumb-" ++ Media.replaceExtension (storedFilename video) in
     let* thumbnailUploadResult := callUploadToGridFS thumbnailBuffer thumbnailFilename in
     let sensitivityAnalysis :=
       Media.analyzeSensitivity metadata (Some (title video)) (description video) in
     tryCatch
       (callUnlink (tempVideoPath env) ;; callUnlink (tempThumbnailPath env))
       (λ cleanupError,
          logLine (ConsoleWarn ("Failed to clean up temporary files: " ++ cleanupError))) ;;
     let* v := videoOf metadata in
     ret (Success
            (mkResultMetadata
               (JS.round (Media.duration metadata))
               (mkResolution (Media.width v) (Media.height v))
               (Media.codec v)
               (Media.format metadata)
               (Media.bitRate metadata)
               (bool_decide (is_Some (Media.audio metadata))))
            thumbnailFilename
            thumbnailUploadResult
            (Media.sensitivity sensitivityAnalysis)
            (Media.flags sensitivityAnalysis)))
    (λ error,
       logLine (ConsoleError ("Video processing error: " ++ error)) ;;
       tryCatch (callUnlink (tempVideoPath env)) (λ _, ret tt) ;;
       tryCatch (callUnlink (tempThumbnailPath env)) (λ _, ret tt) ;;
       ret (Failure error)).

Definition processJob (videoId : string) : M unit :=
  logLine (ConsoleLog ("Processing video " ++ videoId ++ "...")) ;;
  tryCatch
    (let* found := findById videoId in
     match found with
     | None =>
         logLine (ConsoleError ("Video " ++ videoId ++ " not found in database"))
     | Some video =>
         let userId := ownerUserId video in
         let video := set_status InProcessing video in
         save video ;;
         emitProcessingStatus userId videoId InProcessing None [] ;;
         emitProcessingProgress userId videoId 0 ;;
         emitProcessingProgress userId videoId 25 ;;
         let* result := processVideo video in
         emitProcessingProgress userId videoId 75 ;;
         match result with
         | Success metadata thumbnail _ sens sensFlags =>
             let video := applyResult metadata thumbnail sens sensFlags video in
             save video ;;
             emitProcessingProgress userId videoId 100 ;;
             emitProcessingStatus userId videoId Ready (Some sens) sensFlags ;;
             logLine (ConsoleLog ("Video " ++ videoId ++ " processed successfully")) ;;
             emitEvent (SuccessEvent videoId result)
         | Failure error =>
             let video := set_processingError error (set_status Failed video) in
             save video ;;
             emitProcessingError userId videoId error ;;
             emitProcessingStatus userId videoId Failed None [] ;;
             logLine (ConsoleError ("Video " ++ videoId ++ " processing failed: " ++ error)) ;;
             emitEvent (FailedEvent videoId error)
         end
     end)
    (λ error,
       logLine (ConsoleError ("Fatal error processing video " ++ videoId ++ ": " ++ error)) ;;
       tryCatch
         (let* found := findById videoId in
          match found with
          | Some video =>
              let video := set_processingError error (set_status Failed video) in
              save video ;;
              let userId := ownerUserId video in
              emitProcessingError userId videoId error ;;
              emitProcessingStatus userId videoId Failed None []
          | None => ret tt
          end)
         (λ updateError,
            logLine (ConsoleError ("Failed to update video status: " ++ updateError))) ;;
       emitErrorEvent videoId error).

End WithEnv.

(** The two terminal configurations of a Video document. *)
Definition derivedPopulated (v : Video) : Prop :=
  is_Some (duration v) ∧ is_Some (resolution v) ∧ is_Some (codec v)
  ∧ is_Some (format v) ∧ is_Some (thumbnailFilename v).

Definition derivedUnpopulated (v : Video) : Prop :=
  duration v = None ∧ resolution v = None ∧ codec v = None ∧ format v = None
  ∧ thumbnailFilename v = None ∧ sensitivityFlags v = []
  ∧ sensitivity v = Media.Unknown.

Definition readyConfiguration (v : Video) : Prop :=
  status v = Ready ∧ derivedPopulated v ∧ processingError v = None.

Definition failedConfiguration (v : Video) : Prop :=
  status v = Failed ∧ is_Some (processingError v) ∧ derivedUnpopulated v.

Definition emptyWorld (st : gmap string Video) : World :=
  mkWorld st 0 0 [] [] [] [].

(** A world with more console lines and more outside calls. *)
Definition extend (w : World) (ls : list LogLine) (cs : list Call) : World :=
  mkWorld (store w) (findCalls w) (saveCalls w) (notifications w) (events w)
    (console w ++ ls) (calls w ++ cs).

(** A computation is local when it only writes to the console and makes
    outside calls, the same ones with the same result from every world, all
    of them calls of a given kind; it is total when moreover it never
    throws. *)
Definition local (P : Call → Prop) {A} (m : M A) : Prop :=
  ∃ ls cs r, Forall P cs ∧ ∀ w, m w = (extend w ls cs, r).

Definition total (P : Call → Prop) {A} (m : M A) : Prop :=
  ∃ ls cs a, Forall P cs ∧ ∀ w, m w = (extend w ls cs, inr a).

Definition anyCall (c : Call) : Prop := True.

Definition notScreenshots (c : Call) : Prop :=
  match c with
  | Screenshots _ _ _ => False
  | _ => True
  end.

(** A sample upload: an H.264 video of 1920x1080 with an AAC track, whose
    container reports the duration [d]; every outside call succeeds. *)
Definition sampleProbe (d : Q) : Media.Probe :=
  Media.mkProbe
    [Media.mkStream "video" "h264" 1920 1080 30 4000000 0 0;
     Media.mkStream "audio" "aac" 0 0 0 128000 44100 2]
    (Media.mkFormat d 10000000 1300000 "mov,mp4,m4a,3gp,3g2,mj2").

Definition sampleEnv (d : Q) : Env :=
  mkEnv true true (λ _, None) (λ _, None)
    "/tmp/video-1700000000000.mp4" "/tmp/thumb-1700000000000.jpg"
    (λ _, inr "video bytes") (λ _, None) (λ _, inr (sampleProbe d))
    (λ _ _ _, None) (λ _, inr "jpeg bytes") (λ _ _, inr "65a1f0c2e4b0a1b2c3d4e5f7")
    (λ _, None).

Definition sampleVideo : Video :=
  mkVideo "65a1f0c2e4b0a1b2c3d4e5f6" "Holiday" None "64f0c0ffee0123456789abcd"
    Uploaded Media.Unknown "1700000000000-holiday.mp4" (Some "65a1f0c2e4b0a1b2c3d4e5f5")
    None None None None None [] None.

(** The duration rule as the specification words it: what a successful
    run stores is the reported duration truncated to whole seconds. *)
Definition truncatedDurationClaim (env : Env) (video : Video) (w : World) : Prop :=
  ∀ metadata thumbnail fileId sens sensFlags,
    (processVideo env video w).2 = inr (Success metadata thumbnail fileId sens sensFlags) →
    ∃ probe, ffprobe env (tempVideoPath env) = inr probe
             ∧ r_duration metadata = JS.trunc (Media.f_duration (Media.p_format probe)).

(** The thumbnail rule as the specification words it: the frame is taken
    near the midpoint of the video and not beyond its end. *)
Definition midpointThumbnailClaim (env : Env) (video : Video) (w : World) : Prop :=
  ∀ videoPath outputPath t,
    Screenshots videoPath outputPath t ∈ calls (processVideo env video w).1 →
    ∃ probe metadata,
      ffprobe env (tempVideoPath env) = inr probe
      ∧ Media.extractMetadataOf probe = inr metadata
      ∧ Media.nearMidpoint (Media.duration metadata) t
      ∧ (t <= Media.duration metadata)%Q.

(** The handling of a missing record as the specification words it: the
    job body does not throw, makes no blob store or inspector call, and emits
    an [error] event. *)
Definition missingRecordClaim (env : Env) (videoId : string) (w : World) : Prop :=
  (processJob env videoId w).2 = inr tt
  ∧ Forall (λ c, isBlobOrInspectorCall c = false)
      (drop (length (calls w)) (calls (processJob env videoId w).1))
  ∧ ∃ error, ErrorEvent videoId error ∈ events (processJob env videoId w).1.

(** The sample upload after an earlier run that failed. *)
Definition earlierError : string := "Failed to extract metadata: ffprobe exited with code 1".

Definition failedVideo : Video :=
  set_processingError earlierError (set_status Failed sampleVideo).

(** The sample environment with a blob store that cannot deliver the file. *)
Definition brokenDownloadEnv : Env :=
  mkEnv true true (λ _, None) (λ _, None)
    "/tmp/video-1700000000000.mp4" "/tmp/thumb-1700000000000.jpg"
    (λ _, inl "FileNotFound") (λ _, None) (λ _, inr (sampleProbe 60))
    (λ _ _ _, None) (λ _, inr "jpeg bytes") (λ _ _, inr "65a1f0c2e4b0a1b2c3d4e5f7")
    (λ _, None).

(** What [extractMetadata] resolves to on the sample upload. *)
Definition sampleMetadata (d : Q) : Media.Metadata :=
  Media.mkMetadata d 10000000 1300000 "mov,mp4,m4a,3gp,3g2,mj2"
    (Some (Media.mkVideoInfo "h264" 1920 1080 30 4000000))
    (Some (Media.mkAudioInfo "aac" 44100 2)).

(** The sample upload after an earlier run that succeeded. *)
Definition readyVideo : Video :=
  applyResult
    (mkResultMetadata 60 (mkResolution 1920 1080) "h264" "mov,mp4,m4a,3gp,3g2,mj2"
       1300000 true)
    "thumb-1700000000000-holiday.jpg" Media.Safe [] sampleVideo.

(** A container with an audio track only. *)
Definition audioOnlyProbe : Media.Probe :=
  Media.mkProbe [Media.mkStream "audio" "aac" 0 0 0 128000 44100 2]
    (Media.mkFormat 60 1000000 130000 "mov,mp4,m4a,3gp,3g2,mj2").

Definition audioOnlyEnv : Env :=
  mkEnv true true (λ _, None) (λ _, None)
    "/tmp/video-1700000000000.mp4" "/tmp/thumb-1700000000000.jpg"
    (λ _, inr "audio bytes") (λ _, None) (λ _, inr audioOnlyProbe)
    (λ _ _ _, None) (λ _, inr "jpeg bytes") (λ _ _, inr "65a1f0c2e4b0a1b2c3d4e5f7")
    (λ _, None).

(** The stream tests of [extractMetadata]. *)
Definition isVideoStream (s : Media.Stream) : bool := String.eqb (Media.codec_type s) "video".
Definition isAudioStream (s : Media.Stream) : bool := String.eqb (Media.codec_type s) "audio".

(** A computation is safe when it never throws. *)
Definition safe {A} (m : M A) : Prop := ∀ w, ∃ a, (m w).2 = inr a.

(** A computation maintains an invariant of the world, with a
    postcondition on the value it returns when it returns. *)
Definition maintains (I : World → Prop) {A} (m : M A) (Q : A → Prop) : Prop :=
  ∀ w, I w → I (m w).1 ∧ match (m w).2 with inr a => Q a | inl _ => True end.

(** Every record of the store is filed under its own id. *)
Definition filedById (st : gmap string Video) : Prop :=
  ∀ k v, st !! k = Some v → _id v = k.

(** The sample environment with a database that rejects the first lookup. *)
Definition databaseDownEnv (listener : bool) : Env :=
  mkEnv true listener
    (λ k, match k with O => Some "connection timed out" | S _ => None end)
    (λ _, None)
    "/tmp/video-1700000000000.mp4" "/tmp/thumb-1700000000000.jpg"
    (λ _, inr "video bytes") (λ _, None) (λ _, inr (sampleProbe 60))
    (λ _ _ _, None) (λ _, inr "jpeg bytes") (λ _ _, inr "65a1f0c2e4b0a1b2c3d4e5f7")
    (λ _, None).

(** The sample environment with a database that rejects the first save. *)
Definition saveFailsEnv : Env :=
  mkEnv true true (λ _, None)
    (λ k, match k with O => Some "write conflict" | S _ => None end)
    "/tmp/video-1700000000000.mp4" "/tmp/thumb-1700000000000.jpg"
    (λ _, inr "video bytes") (λ _, None) (λ _, inr (sampleProbe 60))
    (λ _ _ _, None) (λ _, inr "jpeg bytes") (λ _ _, inr "65a1f0c2e4b0a1b2c3d4e5f7")
    (λ _, None).

(** The sample environment without a socket server. *)
Definition noSocketEnv : Env :=
  mkEnv false true (λ _, None) (λ _, None)
    "/tmp/video-1700000000000.mp4" "/tmp/thumb-1700000000000.jpg"
    (λ _, inr "video bytes") (λ _, None) (λ _, inr (sampleProbe 60))
    (λ _ _ _, None) (λ _, inr "jpeg bytes") (λ _ _, inr "65a1f0c2e4b0a1b2c3d4e5f7")
    (λ _, None).

End Pipeline.

(* ================================================================== *)
(** * The processing queue (processingQueue.js, class VideoProcessingQueue) *)
(* ================================================================== *)

Module Queue.

(** Events the queue emits about itself. *)
Inductive QueueEvent :=
| Enqueued (videoId : string)
| Started
| Stopped
| Processing (videoId : string)
| Completed (videoId : string)
| Cleared.

(** A suspended continuation of [processNext] held by the event loop. *)
Inductive LoopTask :=
| PollTimer                      (* setTimeout(() => this.processNext(), 1000) *)
| AwaitingJob (videoId : string) (* await this.processJob(videoId) *)
| NextImmediate.                 (* setImmediate(() => this.processNext()) *)

Record State := mkState {
  queue : list string;
  processing : gset string;
  maxConcurrent : Z;
  isRunning : bool;
  pendingTasks : list LoopTask;
  emitted : list QueueEvent
}.

Definition set_queue (q : list string) (s : State) : State :=
  mkState q (processing s) (maxConcurrent s) (isRunning s) (pendingTasks s) (emitted s).
Definition set_processing (p : gset string) (s : State) : State :=
  mkState (queue s) p (maxConcurrent s) (isRunning s) (pendingTasks s) (emitted s).
Definition set_isRunning (b : bool) (s : State) : State :=
  mkState (queue s) (processing s) (maxConcurrent s) b (pendingTasks s) (emitted s).
Definition set_pendingTasks (t : list LoopTask) (s : State) : State :=
  mkState (queue s) (processing s) (maxConcurrent s) (isRunning s) t (emitted s).

(** [this.emit(event)]: the event is appended to the log. *)
Definition emit (e : QueueEvent) (s : State) : State :=
  mkState (queue s) (processing s) (maxConcurrent s) (isRunning s)
          (pendingTasks s) (emitted s ++ [e]).

(** The event loop takes over a continuation of [processNext]. *)
Definition schedule (t : LoopTask) (s : State) : State :=
  set_pendingTasks (pendingTasks s ++ [t]) s.

(** The constructor; [m] is the integer
    [parseInt(process.env.MAX_CONCURRENT_PROCESSING || '2', 10)]. *)
Definition init (m : Z) : State :=
  mkState [] ∅ m false [] [].

(** [processNext], from its entry to the point where it returns to the event
    loop: either at a [return], or suspended at [await this.processJob]. *)
Definition processNext (s : State) : State :=
  if negb (isRunning s) then s
  else if (maxConcurrent s <=? Z.of_nat (size (processing s)))%Z then
    schedule PollTimer s
  else
    match queue s with
    | [] => schedule PollTimer s
    | videoId :: rest =>
        let s := set_queue rest s in
        if negb (JS.truthy videoId) then schedule PollTimer s
        else
          let s := set_processing ({[videoId]} ∪ processing s) s in
          let s := emit (Processing videoId) s in
          schedule (AwaitingJob videoId) s
    end.

(** The rest of [processNext] once the awaited job body has settled, by
    returning or by throwing: the [finally] block. *)
Definition jobSettled (videoId : string) (s : State) : State :=
  let s := set_processing (processing s ∖ {[videoId]}) s in
  let s := emit (Completed videoId) s in
  schedule NextImmediate s.

Definition start (s : State) : State :=
  if isRunning s then s
  else
    let s := set_isRunning true s in
    let s := emit Started s in
    processNext s.

Definition enqueue (videoId : string) (s : State) : State :=
  if negb (bool_decide (videoId ∈ queue s))
     && negb (bool_decide (videoId ∈ processing s)) then
    let s := set_queue (queue s ++ [videoId]) s in
    let s := emit (Enqueued videoId) s in
    if negb (isRunning s) then start s else s
  else s.

Definition stop (s : State) : State :=
  let s := set_isRunning false s in
  emit Stopped s.

Definition clear (s : State) : State :=
  let s := set_queue [] s in
  let s := set_processing ∅ s in
  emit Cleared s.

Record Stats := mkStats {
  queued : nat;
  stat_processing : nat;
  stat_maxConcurrent : Z;
  stat_isRunning : bool
}.

Definition getStats (s : State) : Stats :=
  mkStats (length (queue s)) (size (processing s)) (maxConcurrent s) (isRunning s).

(** The event loop runs the [i]-th suspended continuation. *)
Definition fire (i : nat) (s : State) : option State :=
  match pendingTasks s !! i with
  | None => None
  | Some t =>
      let s := set_pendingTasks (delete i (pendingTasks s)) s in
      Some match t with
           | PollTimer | NextImmediate => processNext s
           | AwaitingJob videoId => jobSettled videoId s
           end
  end.

(** One atomic turn of the single-threaded runtime: a call from outside
    (an HTTP handler, a test) or the resumption of a continuation. *)
Inductive Action :=
| CallEnqueue (videoId : string)
| CallStart
| CallStop
| CallClear
| Resume (i : nat).

Definition step (a : Action) (s : State) : option State :=
  match a with
  | CallEnqueue v => Some (enqueue v s)
  | CallStart => Some (start s)
  | CallStop => Some (stop s)
  | CallClear => Some (clear s)
  | Resume i => fire i s
  end.

Fixpoint run (tr : list Action) (s : State) : option State :=
  match tr with
  | [] => Some s
  | a :: tr =>
      match step a s with
      | Some s => run tr s
      | None => None
      end
  end.

(** Occurrences of an id across the pending list and the in-flight set. *)
Definition occurrences (videoId : string) (s : State) : nat :=
  length (filter (λ x, x = videoId) (queue s))
  + (if bool_decide (videoId ∈ processing s) then 1 else 0).

(** Traces in which nobody calls [start], [stop] or [clear]: the queue is
    driven by [enqueue] and by its own loop only. *)
Definition loopOnly (a : Action) : bool :=
  match a with
  | CallEnqueue _ | Resume _ => true
  | CallStart | CallStop | CallClear => false
  end.

(** The concurrency bound as a state predicate. *)
Definition bounded (s : State) : Prop :=
  (Z.of_nat (size (processing s)) <= maxConcurrent s)%Z.

(** The data-model invariant of the queue: no id is pending twice, and no
    pending id is in flight. *)
Definition wellFormed (s : State) : Prop :=
  NoDup (queue s) ∧ ∀ x, x ∈ queue s → x ∉ processing s.

(** An id is held by the queue, pending or in flight. *)
Definition present (videoId : string) (s : State) : Prop :=
  videoId ∈ queue s ∨ videoId ∈ processing s.

(** The loop has a single thread of control: while the queue is running
    exactly one continuation of [processNext] is suspended, and the in-flight
    set holds the job that continuation awaits, if it awaits one. *)
Definition inFlightOf (t : LoopTask) : gset string :=
  match t with
  | AwaitingJob videoId => {[videoId]}
  | PollTimer | NextImmediate => ∅
  end.

Definition singleLoop (s : State) : Prop :=
  (isRunning s = false ∧ pendingTasks s = [] ∧ processing s = ∅)
  ∨ (isRunning s = true ∧ ∃ t, pendingTasks s = [t] ∧ processing s = inFlightOf t).

(** Two uploads arrive while the limit is two. *)
Definition twoUploads : list Action := [CallEnqueue "a"; CallEnqueue "b"].

Definition afterTwoUploads : State :=
  mkState ["b"] {["a"]} 2 true [AwaitingJob "a"]
    [Enqueued "a"; Started; Processing "a"; Enqueued "b"].

(** Uploads interleaved with restarts of the queue: every [start] that
    follows a [stop] adds a continuation of the loop. *)
Definition restartTrace : list Action :=
  [CallEnqueue "a"; CallStop; CallEnqueue "b"; CallStop; CallEnqueue "c"].

Definition afterRestarts : State :=
  mkState ["c"] ({["a"]} ∪ {["b"]}) 2 true
    [AwaitingJob "a"; AwaitingJob "b"; PollTimer]
    [Enqueued "a"; Started; Processing "a"; Stopped; Enqueued "b"; Started;
     Processing "b"; Stopped; Enqueued "c"; Started].

(** A reset while a job body runs, with a limit of one. *)
Definition resetTrace : list Action :=
  [CallEnqueue "a"; CallClear; CallStop; CallEnqueue "b"].

Definition afterReset : State :=
  mkState [] {["b"]} 1 true [AwaitingJob "a"; AwaitingJob "b"]
    [Enqueued "a"; Started; Processing "a"; Cleared; Stopped; Enqueued "b";
     Started; Processing "b"].

(** Reading the event log: the ids enqueued and the ids dispatched, in the
    order of the events. *)
Definition enqueuedId (e : QueueEvent) : option string :=
  match e with Enqueued v => Some v | _ => None end.

Definition dispatchedId (e : QueueEvent) : option string :=
  match e with Processing v => Some v | _ => None end.

Definition enqueuedIds (log : list QueueEvent) : list string := omap enqueuedId log.
Definition dispatchedIds (log : list QueueEvent) : list string := omap dispatchedId log.

Definition isStarted (e : QueueEvent) : bool :=
  match e with Started => true | _ => false end.
Definition isProcessing (e : QueueEvent) : bool :=
  match e with Processing _ => true | _ => false end.
Definition isCompleted (e : QueueEvent) : bool :=
  match e with Completed _ => true | _ => false end.
Definition isAwaitingJob (t : LoopTask) : bool :=
  match t with AwaitingJob _ => true | _ => false end.

Fixpoint count {A} (p : A → bool) (l : list A) : nat :=
  match l with
  | [] => 0
  | x :: l => (if p x then 1 else 0) + count p l
  end.

(** Traces without [clear] in which only non-empty ids are enqueued. *)
Definition keepsOrder (a : Action) : bool :=
  match a with
  | CallEnqueue v => JS.truthy v
  | CallClear => false
  | CallStart | CallStop | Resume _ => true
  end.

(** The order invariant: what was enqueued is what was dispatched followed
    by what is pending, and no pending id is the empty string. *)
Definition ordered (s : State) : Prop :=
  enqueuedIds (emitted s) = (dispatchedIds (emitted s) ++ queue s)%list
  ∧ Forall (λ v, v ≠ "") (queue s).

(** A stopped queue with one job body still running and one id pending. *)
Definition stoppedBusy : State :=
  mkState ["b"] {["a"]} 2 false [AwaitingJob "a"]
    [Enqueued "a"; Started; Processing "a"; Enqueued "b"; Stopped].

(** An idle, stopped queue. *)
Definition idle : State := mkState [] ∅ 2 false [] [Stopped; Cleared].

(** The accounting invariants of the event log. *)
Definition accounted (s : State) : Prop :=
  count isProcessing (emitted s)
  = (count isCompleted (emitted s) + count isAwaitingJob (pendingTasks s))%nat
  ∧ (length (pendingTasks s) ≤ count isStarted (emitted s))%nat.

End Queue.

(* ================================================================== *)
(** * Properties of the processing queue                               *)
(* ================================================================== *)

Section QueueInvariants.
Import Queue.

(** Every operation leaves the configured limit alone. *)
Lemma processNext_maxConcurrent s : maxConcurrent (processNext s) = maxConcurrent s.
Proof.
  unfold processNext.
  destruct (isRunning s); simpl; [|done].
  destruct (_ <=? _)%Z; [done|].
  destruct (queue s) as [|v rest]; [done|].
  by destruct (JS.truthy v).
Qed.

Lemma start_maxConcurrent s : maxConcurrent (start s) = maxConcurrent s.
Proof.
  unfold start. destruct (isRunning s); [done|].
  by rewrite processNext_maxConcurrent.
Qed.

Lemma enqueue_maxConcurrent v s : maxConcurrent (enqueue v s) = maxConcurrent s.
Proof.
  unfold enqueue. destruct (_ && _); [|done]. simpl.
  destruct (isRunning s); simpl; [done|].
  by rewrite start_maxConcurrent.
Qed.

Lemma step_maxConcurrent a s s' :
  step a s = Some s' → maxConcurrent s' = maxConcurrent s.
Proof.
  destruct a as [v| | | |i]; simpl; intros H; simplify_eq.
  - apply enqueue_maxConcurrent.
  - apply start_maxConcurrent.
  - done.
  - done.
  - unfold fire in H. destruct (pendingTasks s !! i) as [t|]; [|done].
    simplify_eq. destruct t; try by rewrite processNext_maxConcurrent.
    done.
Qed.

Lemma size_add_le (v : string) (P : gset string) : (size ({[v]} ∪ P) ≤ S (size P))%nat.
Proof.
  rewrite size_union_alt, size_singleton.
  assert (size (P ∖ {[v]}) ≤ size P)%nat by (apply subseteq_size; set_solver).
  lia.
Qed.

Lemma size_remove_le (v : string) (P : gset string) : (size (P ∖ {[v]}) ≤ size P)%nat.
Proof. apply subseteq_size. set_solver. Qed.

(** Changing the fields the bound does not read keeps it. *)
Lemma bounded_frame s s' :
  processing s' = processing s → maxConcurrent s' = maxConcurrent s →
  bounded s → bounded s'.
Proof. unfold bounded. by intros -> ->. Qed.

Lemma processNext_bounded s : bounded s → bounded (processNext s).
Proof.
  intros Hb. unfold processNext.
  destruct (isRunning s); simpl; [|done].
  destruct (Z.leb_spec (maxConcurrent s) (Z.of_nat (size (processing s)))) as [Hfull|Hfree].
  { by eapply bounded_frame. }
  destruct (queue s) as [|v rest]; [by eapply bounded_frame|].
  destruct (JS.truthy v); simpl; [|by eapply bounded_frame].
  unfold bounded; simpl.
  pose proof (size_add_le v (processing s)). lia.
Qed.

Lemma jobSettled_bounded v s : bounded s → bounded (jobSettled v s).
Proof.
  unfold bounded; simpl. pose proof (size_remove_le v (processing s)). lia.
Qed.

Lemma start_bounded s : bounded s → bounded (start s).
Proof.
  intros Hb. unfold start. destruct (isRunning s); [done|].
  apply processNext_bounded. by eapply bounded_frame.
Qed.

Lemma enqueue_bounded v s : bounded s → bounded (enqueue v s).
Proof.
  intros Hb. unfold enqueue. destruct (_ && _); [|done]. simpl.
  destruct (isRunning s); simpl; [by eapply bounded_frame|].
  apply start_bounded. by eapply bounded_frame.
Qed.

Lemma step_bounded a s s' : step a s = Some s' → bounded s → bounded s'.
Proof.
  destruct a as [v| | | |i]; simpl; intros H Hb; simplify_eq.
  - by apply enqueue_bounded.
  - by apply start_bounded.
  - by eapply bounded_frame.
  - unfold bounded in *. unfold clear, emit, set_processing, set_queue.
    cbn [processing maxConcurrent]. rewrite size_empty.
    pose proof (Nat2Z.is_nonneg (size (processing s))). lia.
  - unfold fire in H. destruct (pendingTasks s !! i) as [t|]; [|done].
    simplify_eq. destruct t.
    + apply processNext_bounded. by eapply bounded_frame.
    + apply jobSettled_bounded. by eapply bounded_frame.
    + apply processNext_bounded. by eapply bounded_frame.
Qed.

Lemma run_bounded tr : ∀ s s', run tr s = Some s' → bounded s → bounded s'.
Proof.
  induction tr as [|a tr IH]; simpl; intros s s' H Hb.
  - by simplify_eq.
  - destruct (step a s) as [s1|] eqn:Hs; [|done].
    eapply IH; [done|]. by eapply step_bounded.
Qed.

Lemma run_maxConcurrent tr : ∀ s s', run tr s = Some s' → maxConcurrent s' = maxConcurrent s.
Proof.
  induction tr as [|a tr IH]; simpl; intros s s' H.
  - by simplify_eq.
  - destruct (step a s) as [s1|] eqn:Hs; [|done].
    rewrite (IH _ _ H). by eapply step_maxConcurrent.
Qed.

(** C1. Whatever calls to enqueue, start, stop and clear are made and
    however the loop's continuations are resumed, the processing set never
    holds more than [maxConcurrent] ids, for a limit that is a natural
    number of slots. *)
Theorem concurrency_bound (m : Z) (tr : list Action) (s : State) :
  (0 <= m)%Z →
  run tr (init m) = Some s →
  (Z.of_nat (size (processing s)) <= m)%Z.
Proof.
  intros Hm Hrun.
  assert (Hb : bounded s).
  { eapply run_bounded; [done|]. unfold bounded, init.
    cbn [processing maxConcurrent]. by rewrite size_empty. }
  unfold bounded in Hb. by rewrite (run_maxConcurrent _ _ _ Hrun) in Hb.
Qed.

Lemma concurrency_bound_witness :
  (0 <= 2)%Z
  ∧ run restartTrace (init 2) = Some afterRestarts
  ∧ (Z.of_nat (size (processing afterRestarts)) <= 2)%Z.
Proof.
  assert (H0 : (0 <= 2)%Z) by lia.
  assert (Hrun : run restartTrace (init 2) = Some afterRestarts)
    by (vm_compute; reflexivity).
  split; [exact H0|]. split; [exact Hrun|].
  exact (concurrency_bound 2 restartTrace afterRestarts H0 Hrun).
Defined.

(** The bound is on the processing set.  [clear] empties the set without
    touching the job bodies that run, so after it the loop can start a job
    next to one that the set has forgotten. *)
Remark clear_forgets_running_jobs :
  run resetTrace (init 1) = Some afterReset
  ∧ size (processing afterReset) = 1%nat
  ∧ pendingTasks afterReset = [AwaitingJob "a"; AwaitingJob "b"].
Proof. split_and!; vm_compute; reflexivity. Qed.

End QueueInvariants.

Section QueueIdempotence.
Import Queue.

Lemma wellFormed_frame s s' :
  queue s' = queue s → processing s' = processing s →
  wellFormed s → wellFormed s'.
Proof. unfold wellFormed. by intros -> ->. Qed.

Lemma processNext_wellFormed s : wellFormed s → wellFormed (processNext s).
Proof.
  intros Hw. unfold processNext.
  destruct (isRunning s); simpl; [|done].
  destruct (_ <=? _)%Z; [by eapply wellFormed_frame|].
  destruct (queue s) as [|v rest] eqn:Hq; [by eapply wellFormed_frame|].
  destruct Hw as [Hnd Hdisj]. rewrite Hq in Hnd, Hdisj.
  apply NoDup_cons in Hnd as [Hv Hrest].
  destruct (JS.truthy v); simpl.
  - split; simpl; [done|]. intros x Hx.
    assert (x ≠ v) by (intros ->; done).
    assert (x ∉ processing s) by (apply Hdisj; set_solver).
    set_solver.
  - split; simpl; [done|]. intros x Hx. apply Hdisj. set_solver.
Qed.

Lemma jobSettled_wellFormed v s : wellFormed s → wellFormed (jobSettled v s).
Proof.
  intros [Hnd Hdisj]. split; simpl; [done|].
  intros x Hx. specialize (Hdisj x Hx). set_solver.
Qed.

Lemma start_wellFormed s : wellFormed s → wellFormed (start s).
Proof.
  intros Hw. unfold start. destruct (isRunning s); [done|].
  apply processNext_wellFormed. by eapply wellFormed_frame.
Qed.

Lemma enqueue_wellFormed v s : wellFormed s → wellFormed (enqueue v s).
Proof.
  intros [Hnd Hdisj]. unfold enqueue.
  destruct (bool_decide (v ∈ queue s)) eqn:Hin; simpl; [done|].
  destruct (bool_decide (v ∈ processing s)) eqn:Hp; simpl; [done|].
  apply bool_decide_eq_false in Hin, Hp.
  assert (Hpush : wellFormed
            (emit (Enqueued v) (set_queue (queue s ++ [v]) s))).
  { split; simpl.
    - apply NoDup_app. split_and!; [done| |apply NoDup_singleton].
      intros x Hx ->%list_elem_of_singleton. done.
    - intros x [Hx| ->%list_elem_of_singleton]%elem_of_app; [by apply Hdisj|done]. }
  destruct (isRunning s); simpl; [done|]. by apply start_wellFormed.
Qed.

Lemma step_wellFormed a s s' : step a s = Some s' → wellFormed s → wellFormed s'.
Proof.
  destruct a as [v| | | |i]; simpl; intros H Hw; simplify_eq.
  - by apply enqueue_wellFormed.
  - by apply start_wellFormed.
  - by eapply wellFormed_frame.
  - split; simpl; [apply NoDup_nil_2|]. intros x Hx. by apply elem_of_nil in Hx.
  - unfold fire in H. destruct (pendingTasks s !! i) as [t|]; [|done].
    simplify_eq. destruct t.
    + apply processNext_wellFormed. by eapply wellFormed_frame.
    + apply jobSettled_wellFormed. by eapply wellFormed_frame.
    + apply processNext_wellFormed. by eapply wellFormed_frame.
Qed.

Lemma run_wellFormed tr : ∀ s s', run tr s = Some s' → wellFormed s → wellFormed s'.
Proof.
  induction tr as [|a tr IH]; simpl; intros s s' H Hw.
  - by simplify_eq.
  - destruct (step a s) as [s1|] eqn:Hs; [|done].
    eapply IH; [done|]. by eapply step_wellFormed.
Qed.

Lemma init_wellFormed m : wellFormed (init m).
Proof. split; simpl; [apply NoDup_nil_2|]. intros x Hx. by apply elem_of_nil in Hx. Qed.

(** A truthy id stays in the queue across [processNext]: it is either left
    pending or moved to the in-flight set. *)
Lemma processNext_present v s : v ≠ "" → present v s → present v (processNext s).
Proof.
  intros Hv Hp. unfold processNext.
  destruct (isRunning s); simpl; [|done].
  destruct (_ <=? _)%Z; [done|].
  destruct (queue s) as [|h rest] eqn:Hq; [exact Hp|].
  unfold present in *. rewrite Hq in Hp.
  destruct (JS.truthy h) eqn:Hh; simpl.
  - destruct Hp as [Hp|Hp]; [|right; set_solver].
    apply elem_of_cons in Hp as [->|Hp]; [right; set_solver|by left].
  - destruct Hp as [Hp|Hp]; [|by right].
    apply elem_of_cons in Hp as [->|Hp]; [|by left].
    unfold JS.truthy in Hh. apply negb_false_iff, String.eqb_eq in Hh. done.
Qed.

Lemma start_present v s : v ≠ "" → present v s → present v (start s).
Proof.
  intros Hv Hp. unfold start. destruct (isRunning s); [done|].
  by apply processNext_present.
Qed.

Lemma enqueue_present v s : v ≠ "" → present v (enqueue v s).
Proof.
  intros Hv. unfold enqueue.
  destruct (bool_decide (v ∈ queue s)) eqn:Hin; simpl.
  { apply bool_decide_eq_true in Hin. by left. }
  destruct (bool_decide (v ∈ processing s)) eqn:Hp; simpl.
  { apply bool_decide_eq_true in Hp. by right. }
  assert (Hpush : present v (emit (Enqueued v) (set_queue (queue s ++ [v]) s))).
  { left; simpl. set_solver. }
  destruct (isRunning s); simpl; [done|]. by apply start_present.
Qed.

Lemma enqueue_held v s : present v s → enqueue v s = s.
Proof.
  intros [Hq|Hp]; unfold enqueue.
  - by rewrite (bool_decide_eq_true_2 _ Hq).
  - rewrite (bool_decide_eq_true_2 _ Hp). by rewrite andb_false_r.
Qed.

Lemma filter_eq_absent (v : string) (l : list string) :
  v ∉ l → filter (λ x, x = v) l = [].
Proof.
  induction l as [|h l IH]; [done|]. intros Hn.
  rewrite filter_cons. destruct (decide (h = v)) as [->|]; [set_solver|].
  apply IH. set_solver.
Qed.

Lemma filter_eq_once (v : string) (l : list string) :
  NoDup l → v ∈ l → filter (λ x, x = v) l = [v].
Proof.
  induction l as [|h l IH]; [by intros _ ?%elem_of_nil|].
  intros [Hh Hl]%NoDup_cons Hin. rewrite filter_cons.
  destruct (decide (h = v)) as [->|Hne].
  - by rewrite filter_eq_absent.
  - apply IH; [done|]. set_solver.
Qed.

Lemma occurrences_one v s : wellFormed s → present v s → occurrences v s = 1%nat.
Proof.
  intros [Hnd Hdisj] [Hq|Hp]; unfold occurrences.
  - rewrite (filter_eq_once _ _ Hnd Hq).
    by rewrite (bool_decide_eq_false_2 _ (Hdisj _ Hq)).
  - rewrite (bool_decide_eq_true_2 _ Hp).
    rewrite filter_eq_absent; [done|]. intros Hq. by apply (Hdisj _ Hq).
Qed.

(** C2. In every reachable state, enqueueing a video id (a non-empty
    string) twice in a row leaves exactly one occurrence of it across the
    pending list and the in-flight set, and the second call returns the
    state of the first unchanged, event log included. *)
Theorem enqueue_idempotent (m : Z) (tr : list Action) (s : State) (v : string) :
  v ≠ "" →
  run tr (init m) = Some s →
  enqueue v (enqueue v s) = enqueue v s ∧ occurrences v (enqueue v s) = 1%nat.
Proof.
  intros Hv Hrun.
  pose proof (enqueue_present v s Hv) as Hp.
  split; [by apply enqueue_held|].
  apply occurrences_one; [|done].
  apply enqueue_wellFormed. eapply run_wellFormed; [done|apply init_wellFormed].
Qed.

Lemma enqueue_idempotent_witness :
  "c" ≠ ""
  ∧ run twoUploads (init 2) = Some afterTwoUploads
  ∧ enqueue "c" (enqueue "c" afterTwoUploads) = enqueue "c" afterTwoUploads
  ∧ occurrences "c" (enqueue "c" afterTwoUploads) = 1%nat.
Proof.
  assert (Hc : "c" ≠ "") by discriminate.
  assert (Hrun : run twoUploads (init 2) = Some afterTwoUploads)
    by (vm_compute; reflexivity).
  split; [exact Hc|]. split; [exact Hrun|].
  exact (enqueue_idempotent 2 twoUploads afterTwoUploads "c" Hc Hrun).
Defined.

(** The empty string is not an id: [processNext] takes it for an empty
    queue and drops it, so that it can be enqueued again at once. *)
Remark empty_string_is_dropped :
  queue (enqueue "" (init 2)) = []
  ∧ processing (enqueue "" (init 2)) = ∅
  ∧ queue (enqueue "" (enqueue "" (init 2))) = [""].
Proof. split_and!; vm_compute; reflexivity. Qed.

End QueueIdempotence.

Section QueueSerial.
Import Queue.

Lemma processNext_singleLoop s :
  isRunning s = true → pendingTasks s = [] → processing s = ∅ →
  singleLoop (processNext s).
Proof.
  intros Hr Ht Hp. right. unfold processNext. rewrite Hr. simpl.
  destruct (_ <=? _)%Z; simpl.
  { split; [done|]. exists PollTimer. by rewrite Ht, Hp. }
  destruct (queue s) as [|v rest]; simpl.
  { split; [done|]. exists PollTimer. by rewrite Ht, Hp. }
  destruct (JS.truthy v); simpl.
  - split; [done|]. exists (AwaitingJob v). rewrite Ht, Hp. simpl.
    split; [done|]. set_solver.
  - split; [done|]. exists PollTimer. by rewrite Ht, Hp.
Qed.

Lemma enqueue_singleLoop v s : singleLoop s → singleLoop (enqueue v s).
Proof.
  intros Hs. unfold enqueue. destruct (_ && _); [|done]. simpl.
  destruct Hs as [(Hr & Ht & Hp)|(Hr & t & Ht & Hp)]; rewrite Hr; simpl.
  - unfold start. simpl. rewrite Hr. by apply processNext_singleLoop.
  - right. split; [done|]. by exists t.
Qed.

Lemma fire_singleLoop i s s' : fire i s = Some s' → singleLoop s → singleLoop s'.
Proof.
  unfold fire. intros H [(Hr & Ht & Hp)|(Hr & t & Ht & Hp)].
  { rewrite Ht in H. done. }
  rewrite Ht in H. destruct i as [|i]; simpl in H; [|done]. simplify_eq.
  destruct t; simpl in Hp.
  - by apply processNext_singleLoop.
  - right. simpl. split; [done|]. exists NextImmediate. split; [done|].
    rewrite Hp. set_solver.
  - by apply processNext_singleLoop.
Qed.

Lemma run_singleLoop tr : ∀ s s',
  forallb loopOnly tr = true → run tr s = Some s' → singleLoop s → singleLoop s'.
Proof.
  induction tr as [|a tr IH]; simpl; intros s s' Hl H Hs.
  - by simplify_eq.
  - apply andb_prop in Hl as [Ha Hl].
    destruct (step a s) as [s1|] eqn:Hstep; [|done].
    eapply IH; [done|done|].
    destruct a; simpl in *; try done; simplify_eq.
    + by apply enqueue_singleLoop.
    + by eapply fire_singleLoop.
Qed.

Lemma singleLoop_size s : singleLoop s → (size (processing s) ≤ 1)%nat.
Proof.
  intros [(_ & _ & ->)|(_ & t & _ & ->)]; [rewrite size_empty; lia|].
  destruct t; unfold inFlightOf; rewrite ?size_empty, ?size_singleton; lia.
Qed.

(** Driven by [enqueue] and its own loop, the queue never has two jobs in
    flight, whatever the limit: at [await this.processJob(videoId)] the only
    continuation of the loop waits for the job body to settle. *)
Lemma loop_runs_one_job_at_a_time (m : Z) (tr : list Action) (s : State) :
  forallb loopOnly tr = true →
  run tr (init m) = Some s →
  (size (processing s) ≤ 1)%nat ∧ (length (pendingTasks s) ≤ 1)%nat.
Proof.
  intros Hl Hrun.
  assert (Hs : singleLoop s).
  { eapply run_singleLoop; [done|done|]. by left. }
  split; [by apply singleLoop_size|].
  destruct Hs as [(_ & -> & _)|(_ & t & -> & _)]; simpl; lia.
Qed.

(** C4. With a limit of two, after [enqueue("a"); enqueue("b")] job "a" is
    in flight and "b" is still pending although a slot is free; the loop has
    one continuation, suspended on the job body of "a"; no other continuation
    exists that could dequeue "b"; and when the job body of "a" settles the
    loop only schedules its next turn, with nothing in flight. *)
Theorem loop_waits_for_job_body :
  run twoUploads (init 2) = Some afterTwoUploads
  ∧ (Z.of_nat (size (processing afterTwoUploads)) < maxConcurrent afterTwoUploads)%Z
  ∧ (∀ i, step (Resume (S i)) afterTwoUploads = None)
  ∧ step (Resume 0) afterTwoUploads
    = Some (mkState ["b"] ∅ 2 true [NextImmediate]
              [Enqueued "a"; Started; Processing "a"; Enqueued "b"; Completed "a"]).
Proof.
  split_and!.
  - vm_compute. reflexivity.
  - vm_compute. reflexivity.
  - intros i. reflexivity.
  - vm_compute. reflexivity.
Qed.

End QueueSerial.

(* ================================================================== *)
(** * Properties of the sensitivity classifier                         *)
(* ================================================================== *)

Section Classifier.
Import Media.

(** What each rule leaves alone. *)
Lemma rule1_sensitivity m a : sensitivity (rule1 m a) = sensitivity a.
Proof. unfold rule1. by repeat case_match. Qed.

Lemma rule2_sensitivity m a : sensitivity (rule2 m a) = sensitivity a.
Proof. unfold rule2, divide. by repeat case_match. Qed.

Lemma rule4_sensitivity m a : sensitivity (rule4 m a) = sensitivity a.
Proof. unfold rule4, divide. by repeat case_match. Qed.

Lemma rule5_sensitivity m a : sensitivity (rule5 m a) = sensitivity a.
Proof. unfold rule5. by repeat case_match. Qed.

Lemma rule4_flags_grow m a : (length (flags a) ≤ length (flags (rule4 m a)))%nat.
Proof.
  unfold rule4, divide. repeat case_match; simpl; rewrite ?length_app; simpl; lia.
Qed.

Lemma rule5_flags_grow m a : (length (flags a) ≤ length (flags (rule5 m a)))%nat.
Proof.
  unfold rule5. repeat case_match; simpl; rewrite ?length_app; simpl; lia.
Qed.

(** The keyword loop forces the level exactly when a keyword occurs, and
    then it has pushed a flag. *)
Lemma keywordLoop_sensitivity ks text a :
  sensitivity (keywordLoop ks text a)
  = if existsb (λ k, JS.includes k text) ks then Flagged else sensitivity a.
Proof.
  induction ks as [|k ks IH]; simpl; [done|].
  destruct (JS.includes k text); simpl; [done|apply IH].
Qed.

Lemma keywordLoop_flags_match ks text a :
  existsb (λ k, JS.includes k text) ks = true →
  (1 ≤ length (flags (keywordLoop ks text a)))%nat.
Proof.
  induction ks as [|k ks IH]; simpl; [done|].
  destruct (JS.includes k text); simpl; [|apply IH].
  intros _. rewrite length_app. simpl. lia.
Qed.

Lemma applyRules_sensitivity m t d :
  sensitivity (applyRules m t d) = if keywordMatch t d then Flagged else Safe.
Proof.
  unfold applyRules, rule3, keywordMatch.
  rewrite rule5_sensitivity, rule4_sensitivity, keywordLoop_sensitivity.
  by rewrite rule2_sensitivity, rule1_sensitivity.
Qed.

Lemma applyRules_flags_match m t d :
  keywordMatch t d = true → (1 ≤ length (flags (applyRules m t d)))%nat.
Proof.
  intros Hk. unfold applyRules.
  etrans; [|apply rule5_flags_grow]. etrans; [|apply rule4_flags_grow].
  by apply keywordLoop_flags_match.
Qed.

Lemma finalLevel_flags a : flags (finalLevel a) = flags a.
Proof. unfold finalLevel. by repeat case_match. Qed.

(** The closing statements compute the level the specification gives. *)
Lemma finalLevel_spec a :
  (sensitivity a = Flagged → (1 ≤ length (flags a))%nat) →
  sensitivity a ≠ Unknown →
  sensitivity (finalLevel a)
  = specFinalLevel (Level_eqb (sensitivity a) Flagged) (length (flags a)).
Proof.
  intros Hforced Hunk. unfold finalLevel, specFinalLevel.
  destruct (sensitivity a) eqn:Hs; simpl; [|done|].
  - destruct (length (flags a)) as [|[|[|n]]] eqn:Hn; simpl; rewrite ?Hn, ?Hs; done.
  - specialize (Hforced eq_refl).
    rewrite andb_false_r, Hs. simpl.
    destruct (length (flags a)) as [|n]; [lia|done].
Qed.

(** C6. For every input the level returned is: flagged when a keyword
    matched; otherwise safe when no flag was raised, flagged when three or
    more were, and unknown in between. *)
Theorem final_level_determination (m : Metadata) (title description : option string) :
  sensitivity (analyzeSensitivity m title description)
  = specFinalLevel (keywordMatch title description)
      (length (flags (analyzeSensitivity m title description))).
Proof.
  unfold analyzeSensitivity. rewrite finalLevel_flags.
  pose proof (applyRules_sensitivity m title description) as Hs.
  rewrite finalLevel_spec.
  - rewrite Hs. by destruct (keywordMatch title description).
  - rewrite Hs. destruct (keywordMatch title description) eqn:Hk; [|done].
    intros _. by apply applyRules_flags_match.
  - rewrite Hs. by destruct (keywordMatch title description).
Qed.

(** The bitrate rule is skipped when the duration is not positive. *)
Lemma rule4_skipped m a : (duration m <= 0)%Q → rule4 m a = a.
Proof.
  intros Hd. unfold rule4, JS.Qltb.
  apply Qle_bool_iff in Hd. by rewrite Hd.
Qed.

Lemma keywordFlag_not_lowBitrate k : keywordFlag k ≠ lowBitrateFlag.
Proof. unfold keywordFlag, lowBitrateFlag. simpl. discriminate. Qed.

Lemma keywordLoop_no_lowBitrate ks text a :
  lowBitrateFlag ∉ flags a → lowBitrateFlag ∉ flags (keywordLoop ks text a).
Proof.
  induction ks as [|k ks IH]; simpl; [done|]. intros Ha.
  destruct (JS.includes k text); simpl; [|by apply IH].
  rewrite elem_of_app, list_elem_of_singleton.
  intros [?|Heq]; [done|]. by apply (keywordFlag_not_lowBitrate k).
Qed.

Lemma keywordLoop_divisions ks text a :
  divisions (keywordLoop ks text a) = divisions a.
Proof.
  induction ks as [|k ks IH]; simpl; [done|].
  by destruct (JS.includes k text).
Qed.

Lemma rule1_no_lowBitrate m a :
  lowBitrateFlag ∉ flags a → lowBitrateFlag ∉ flags (rule1 m a).
Proof.
  intros Ha. unfold rule1. repeat case_match; simpl; try done;
    rewrite elem_of_app, list_elem_of_singleton; intros [?|Heq]; done.
Qed.

Lemma rule2_no_lowBitrate m a :
  lowBitrateFlag ∉ flags a → lowBitrateFlag ∉ flags (rule2 m a).
Proof.
  intros Ha. unfold rule2, divide. repeat case_match; simplify_eq; simpl; try done;
    rewrite elem_of_app, list_elem_of_singleton; intros [?|Heq]; done.
Qed.

Lemma rule5_no_lowBitrate m a :
  lowBitrateFlag ∉ flags a → lowBitrateFlag ∉ flags (rule5 m a).
Proof.
  intros Ha. unfold rule5. repeat case_match; simpl; try done;
    rewrite elem_of_app, list_elem_of_singleton; intros [?|Heq]; done.
Qed.

(** Every division of rule 2 has a positive divisor. *)
Lemma rule2_divisions m a :
  Forall (λ p, (0 < snd p)%Q) (divisions a) →
  Forall (λ p, (0 < snd p)%Q) (divisions (rule2 m a)).
Proof.
  intros Ha. unfold rule2, divide.
  destruct (_ && _) eqn:Hpos; [|done].
  apply andb_prop in Hpos as [_ Hh%Z.ltb_lt].
  assert (Forall (λ p, (0 < snd p)%Q)
            (divisions a ++ [(inject_Z match video m with Some v => width v | None => 0%Z end,
                              inject_Z match video m with Some v => height v | None => 0%Z end)])).
  { apply Forall_app. split; [done|]. apply Forall_singleton. simpl.
    unfold Qlt; simpl. lia. }
  by repeat case_match.
Qed.

Lemma rule1_divisions m a : divisions (rule1 m a) = divisions a.
Proof. unfold rule1. by repeat case_match. Qed.

Lemma rule5_divisions m a : divisions (rule5 m a) = divisions a.
Proof. unfold rule5. by repeat case_match. Qed.

(** C9. When the duration is zero or negative the classifier does not
    raise the low-bitrate flag, evaluates no division whose divisor is the
    duration, and every division it does evaluate has a positive divisor,
    whatever the size. *)
Theorem bitrate_proxy_guarded (m : Metadata) (title description : option string) :
  (duration m <= 0)%Q →
  (lowBitrateFlag ∉ flags (analyzeSensitivity m title description))
  ∧ (∀ x, (x, duration m) ∉ divisions (analyzeSensitivity m title description))
  ∧ Forall (λ p, (0 < snd p)%Q) (divisions (analyzeSensitivity m title description)).
Proof.
  intros Hd.
  assert (Hflags : lowBitrateFlag ∉ flags (analyzeSensitivity m title description)).
  { unfold analyzeSensitivity, applyRules, rule3. rewrite finalLevel_flags.
    rewrite (rule4_skipped _ _ Hd).
    apply rule5_no_lowBitrate, keywordLoop_no_lowBitrate,
      rule2_no_lowBitrate, rule1_no_lowBitrate.
    simpl. apply not_elem_of_nil. }
  assert (Hdiv : Forall (λ p, (0 < snd p)%Q)
                   (divisions (analyzeSensitivity m title description))).
  { unfold analyzeSensitivity, applyRules, rule3.
    assert (Hfin : ∀ a, divisions (finalLevel a) = divisions a).
    { intros a. unfold finalLevel. by repeat case_match. }
    rewrite Hfin, (rule4_skipped _ _ Hd), rule5_divisions, keywordLoop_divisions.
    apply rule2_divisions. rewrite rule1_divisions. simpl. constructor. }
  split_and!; [done| |done].
  intros x Hx. rewrite Forall_forall in Hdiv. specialize (Hdiv _ Hx). simpl in Hdiv.
  apply Qlt_not_le in Hdiv. done.
Qed.

Lemma bitrate_proxy_guarded_witness :
  (duration (Pipeline.sampleMetadata 0) <= 0)%Q
  ∧ (lowBitrateFlag ∉ flags (analyzeSensitivity (Pipeline.sampleMetadata 0) (Some "Holiday") None))
  ∧ (∀ x, (x, duration (Pipeline.sampleMetadata 0))
          ∉ divisions (analyzeSensitivity (Pipeline.sampleMetadata 0) (Some "Holiday") None))
  ∧ Forall (λ p, (0 < snd p)%Q)
      (divisions (analyzeSensitivity (Pipeline.sampleMetadata 0) (Some "Holiday") None)).
Proof.
  assert (Hd : (duration (Pipeline.sampleMetadata 0) <= 0)%Q) by (vm_compute; discriminate).
  split; [exact Hd|].
  exact (bitrate_proxy_guarded (Pipeline.sampleMetadata 0) (Some "Holiday") None Hd).
Defined.

End Classifier.

(* ================================================================== *)
(** * Properties of the processing of one video                        *)
(* ================================================================== *)

Section ProcessVideo.
Import Pipeline.

Lemma extend_extend w ls cs ls' cs' :
  extend (extend w ls cs) ls' cs' = extend w (ls ++ ls')%list (cs ++ cs')%list.
Proof. unfold extend; simpl. by rewrite <- !app_assoc. Qed.

Lemma extend_nil w : extend w [] [] = w.
Proof. destruct w. unfold extend; simpl. by rewrite !app_nil_r. Qed.

Section Locality.
Variable P : Call → Prop.

Lemma total_local {A} (m : M A) : total P m → local P m.
Proof. intros (ls & cs & a & HP & H). by exists ls, cs, (inr a). Qed.

Lemma total_ret {A} (a : A) : total P (ret a).
Proof. exists [], [], a. split; [done|]. intros w. unfold ret. by rewrite extend_nil. Qed.

Lemma local_throw {A} (e : string) : local P (throw (A:=A) e).
Proof.
  exists [], [], (inl e). split; [done|]. intros w. unfold throw. by rewrite extend_nil.
Qed.

Lemma total_logLine l : total P (logLine l).
Proof.
  exists [l], [], tt. split; [done|]. intros w. unfold logLine, extend.
  by rewrite app_nil_r.
Qed.

Lemma total_recordCall c : P c → total P (recordCall c).
Proof.
  intros Hc. exists [], [c], tt. split; [by apply Forall_singleton|].
  intros w. unfold recordCall, extend. by rewrite app_nil_r.
Qed.

Lemma local_bind {A B} (m : M A) (k : A → M B) :
  local P m → (∀ a, local P (k a)) → local P (bind m k).
Proof.
  intros (ls & cs & r & HP & Hm) Hk. destruct r as [e|a].
  - exists ls, cs, (inl e). split; [done|]. intros w. unfold bind. by rewrite Hm.
  - destruct (Hk a) as (ls' & cs' & r' & HP' & Hka).
    exists (ls ++ ls')%list, (cs ++ cs')%list, r'. split; [by apply Forall_app|].
    intros w. unfold bind. by rewrite Hm, Hka, extend_extend.
Qed.

Lemma total_bind {A B} (m : M A) (k : A → M B) :
  total P m → (∀ a, total P (k a)) → total P (bind m k).
Proof.
  intros (ls & cs & a & HP & Hm) Hk.
  destruct (Hk a) as (ls' & cs' & b & HP' & Hka).
  exists (ls ++ ls')%list, (cs ++ cs')%list, b. split; [by apply Forall_app|].
  intros w. unfold bind. by rewrite Hm, Hka, extend_extend.
Qed.

Lemma local_tryCatch {A} (m : M A) (h : string → M A) :
  local P m → (∀ e, local P (h e)) → local P (tryCatch m h).
Proof.
  intros (ls & cs & r & HP & Hm) Hh. destruct r as [e|a].
  - destruct (Hh e) as (ls' & cs' & r' & HP' & Hhe).
    exists (ls ++ ls')%list, (cs ++ cs')%list, r'. split; [by apply Forall_app|].
    intros w. unfold tryCatch. by rewrite Hm, Hhe, extend_extend.
  - exists ls, cs, (inr a). split; [done|]. intros w. unfold tryCatch. by rewrite Hm.
Qed.

(** A [try] whose handler never throws never throws. *)
Lemma total_tryCatch {A} (m : M A) (h : string → M A) :
  local P m → (∀ e, total P (h e)) → total P (tryCatch m h).
Proof.
  intros (ls & cs & r & HP & Hm) Hh. destruct r as [e|a].
  - destruct (Hh e) as (ls' & cs' & b & HP' & Hhe).
    exists (ls ++ ls')%list, (cs ++ cs')%list, b. split; [by apply Forall_app|].
    intros w. unfold tryCatch. by rewrite Hm, Hhe, extend_extend.
  - exists ls, cs, a. split; [done|]. intros w. unfold tryCatch. by rewrite Hm.
Qed.

Lemma local_answer {A} (r : string + A) : local P (answer r).
Proof. destruct r; [apply local_throw|apply total_local, total_ret]. Qed.

Lemma local_outcome r : local P (outcome r).
Proof. destruct r; [apply local_throw|apply total_local, total_ret]. Qed.

End Locality.

(** One step of a locality proof, following the shape of the computation. *)
Ltac local_step :=
  first
    [ apply local_bind; [|intros ?]
    | apply local_tryCatch; [|intros ?]
    | apply total_local, total_ret
    | apply total_local, total_logLine
    | apply total_local, total_recordCall; exact I
    | apply local_throw
    | apply local_answer
    | apply local_outcome
    | case_match ].

Lemma local_callUnlink P env path : P (Unlink path) → local P (callUnlink env path).
Proof.
  intros HP. unfold callUnlink. apply local_bind; [|intros _; apply local_outcome].
  by apply total_local, total_recordCall.
Qed.

Lemma total_quietUnlink P env path :
  P (Unlink path) → total P (tryCatch (callUnlink env path) (λ _, ret tt)).
Proof.
  intros HP. apply total_tryCatch; [by apply local_callUnlink|intros _; apply total_ret].
Qed.

(** The [catch] block of [processVideo] resolves to a failure result. *)
Lemma processVideo_handler_total P env e :
  (∀ path, P (Unlink path)) →
  total P (logLine (ConsoleError ("Video processing error: " ++ e)) ;;
           tryCatch (callUnlink env (tempVideoPath env)) (λ _, ret tt) ;;
           tryCatch (callUnlink env (tempThumbnailPath env)) (λ _, ret tt) ;;
           ret (Failure e)).
Proof.
  intros HP.
  apply total_bind; [apply total_logLine|intros _].
  apply total_bind; [by apply total_quietUnlink|intros _].
  apply total_bind; [by apply total_quietUnlink|intros _].
  apply total_ret.
Qed.

(** [processVideo] touches nothing but the console and the outside world,
    and always resolves: every error is turned into a failure result. *)
Lemma processVideo_total env video : total anyCall (processVideo env video).
Proof.
  unfold processVideo. apply total_tryCatch.
  - unfold callDownloadToBuffer, callWriteFile, extractMetadata, generateThumbnail,
      callReadFile, callUploadToGridFS, videoOf.
    repeat local_step; by apply local_callUnlink.
  - intros e. by apply processVideo_handler_total.
Qed.

Lemma processVideo_frame env video w :
  processVideo env video w
  = (extend w (console (processVideo env video (emptyWorld ∅)).1)
              (calls (processVideo env video (emptyWorld ∅)).1),
     (processVideo env video (emptyWorld ∅)).2).
Proof.
  destruct (processVideo_total env video) as (ls & cs & r & _ & H).
  rewrite (H w), (H (emptyWorld ∅)). done.
Qed.

Lemma processVideo_result env video w :
  (processVideo env video w).2 = (processVideo env video (emptyWorld ∅)).2.
Proof. by rewrite processVideo_frame. Qed.

Lemma processVideo_resolves env video w :
  ∃ result, (processVideo env video w).2 = inr result.
Proof.
  destruct (processVideo_total env video) as (ls & cs & r & _ & H).
  exists r. by rewrite H.
Qed.

Lemma bind_inr {A B} (m : M A) (k : A → M B) w w' b :
  bind m k w = (w', inr b) → ∃ a w1, m w = (w1, inr a) ∧ k a w1 = (w', inr b).
Proof. unfold bind. destruct (m w) as [w1 [e|a]]; [done|]. eauto. Qed.

Lemma tryCatch_bind_ok {A B} (m : M A) (k : A → M B) h w w1 a :
  m w = (w1, inr a) → tryCatch (bind m k) h w = tryCatch (k a) h w1.
Proof. intros Hm. unfold tryCatch, bind. by rewrite Hm. Qed.

Lemma tryCatch_bind_assoc {A B C} (m : M A) (k1 : A → M B) (k2 : B → M C) h w :
  tryCatch (bind (bind m k1) k2) h w = tryCatch (bind m (λ a, bind (k1 a) k2)) h w.
Proof. unfold tryCatch, bind. by destruct (m w) as [w1 [e|a]]. Qed.

Lemma callDownloadToBuffer_inr env fileId w w' buffer :
  callDownloadToBuffer env fileId w = (w', inr buffer) →
  downloadToBuffer env fileId = inr buffer.
Proof.
  unfold callDownloadToBuffer, bind, recordCall, throw, ret.
  destruct (downloadToBuffer env fileId); naive_solver.
Qed.

Lemma extractMetadata_inr env videoPath w w' metadata :
  extractMetadata env videoPath w = (w', inr metadata) →
  ∃ probe, ffprobe env videoPath = inr probe
           ∧ Media.extractMetadataOf probe = inr metadata.
Proof.
  unfold extractMetadata, bind, recordCall, throw, answer, ret.
  destruct (ffprobe env videoPath) as [e|probe]; [done|].
  destruct (Media.extractMetadataOf probe) eqn:Hm; [by unfold throw|].
  unfold ret. intros [= _ ->]. eauto.
Qed.

Lemma videoOf_inr metadata w w' v :
  videoOf metadata w = (w', inr v) → Media.video metadata = Some v.
Proof.
  unfold videoOf, throw, ret. destruct (Media.video metadata); naive_solver.
Qed.

Lemma extractMetadataOf_duration probe metadata :
  Media.extractMetadataOf probe = inr metadata →
  Media.duration metadata = Media.f_duration (Media.p_format probe).
Proof.
  unfold Media.extractMetadataOf. destruct (List.find _ _); [|done].
  by intros [= <-].
Qed.

(** A successful result comes from a run in which every step succeeded. *)
Lemma processVideo_success_inv env video w md thumbnail fileId sens sensFlags :
  (processVideo env video w).2 = inr (Success md thumbnail fileId sens sensFlags) →
  ∃ probe metadata v,
    ffprobe env (tempVideoPath env) = inr probe
    ∧ Media.extractMetadataOf probe = inr metadata
    ∧ Media.video metadata = Some v
    ∧ md = mkResultMetadata (JS.round (Media.duration metadata))
             (mkResolution (Media.width v) (Media.height v))
             (Media.codec v) (Media.format metadata) (Media.bitRate metadata)
             (bool_decide (is_Some (Media.audio metadata)))
    ∧ thumbnail = "thumb-" ++ Media.replaceExtension (storedFilename video)
    ∧ sens = Media.sensitivity
               (Media.analyzeSensitivity metadata (Some (title video)) (description video))
    ∧ sensFlags = Media.flags
               (Media.analyzeSensitivity metadata (Some (title video)) (description video)).
Proof.
  unfold processVideo, tryCatch.
  destruct (bind _ _ w) as [w1 [e|r]] eqn:Hbody.
  { destruct (processVideo_handler_total anyCall env e) as (ls & cs & a & _ & Hh); [done|].
    pose proof (Hh w1) as Hh1. pose proof (Hh (emptyWorld ∅)) as Hh0.
    intros H. exfalso. revert H.
    match goal with |- context [bind ?m ?k w1] => change (bind m k w1) with
        ((logLine (ConsoleError ("Video processing error: " ++ e)) ;;
          tryCatch (callUnlink env (tempVideoPath env)) (λ _, ret tt) ;;
          tryCatch (callUnlink env (tempThumbnailPath env)) (λ _, ret tt) ;;
          ret (Failure e)) w1) end.
    rewrite Hh1. simpl. intros [= ->].
    revert Hh0. unfold bind, logLine, tryCatch, callUnlink, bind, recordCall, outcome, throw, ret.
    repeat case_match; simplify_eq; done. }
  simpl. intros [= ->].
  apply bind_inr in Hbody as (_ & w2 & _ & Hbody).
  apply bind_inr in Hbody as (buffer & w3 & _ & Hbody).
  apply bind_inr in Hbody as (_ & w4 & _ & Hbody).
  apply bind_inr in Hbody as (metadata & w5 & (probe & Hprobe & Hmeta)%extractMetadata_inr & Hbody).
  apply bind_inr in Hbody as (_ & w6 & _ & Hbody).
  apply bind_inr in Hbody as (thumbnailBuffer & w7 & _ & Hbody).
  apply bind_inr in Hbody as (uploadResult & w8 & _ & Hbody).
  apply bind_inr in Hbody as (_ & w9 & _ & Hbody).
  apply bind_inr in Hbody as (v & w10 & Hv%videoOf_inr & Hbody).
  unfold ret in Hbody. simplify_eq.
  exists probe, metadata, v. done.
Qed.

(** C8, as the code has it.  The duration stored by a successful run is
    the reported duration rounded to the nearest whole second, halves
    upwards: it is the integer [r] with [r <= d + 1/2 < r + 1]. *)
Theorem stored_duration_is_rounded env video w md thumbnail fileId sens sensFlags :
  (processVideo env video w).2 = inr (Success md thumbnail fileId sens sensFlags) →
  ∃ probe,
    ffprobe env (tempVideoPath env) = inr probe
    ∧ r_duration md = Qfloor (Media.f_duration (Media.p_format probe) + (1 # 2))
    ∧ (inject_Z (r_duration md) <= Media.f_duration (Media.p_format probe) + (1 # 2))%Q
    ∧ (Media.f_duration (Media.p_format probe) + (1 # 2) < inject_Z (r_duration md) + 1)%Q.
Proof.
  intros (probe & metadata & v & Hprobe & Hmeta & _ & -> & _)%processVideo_success_inv.
  exists probe. split; [done|]. simpl.
  rewrite (extractMetadataOf_duration _ _ Hmeta). unfold JS.round.
  split_and!; [done|apply Qfloor_le|].
  pose proof (Qlt_floor (Media.f_duration (Media.p_format probe) + (1 # 2))) as H.
  by rewrite inject_Z_plus in H.
Qed.

(** C8, as the specification has it, fails on a video of 5.7 seconds: the
    run stores 6, truncation gives 5. *)
Lemma truncation_fails_at_5_7 :
  ¬ truncatedDurationClaim (sampleEnv (57 # 10)) sampleVideo (emptyWorld ∅).
Proof.
  intros Hclaim.
  edestruct Hclaim as (probe & Hprobe & Hd).
  { vm_compute. reflexivity. }
  simpl in Hprobe. injection Hprobe as <-.
  vm_compute in Hd. discriminate.
Qed.

Lemma min_one_half_bounds (d : Q) :
  (JS.min 1 (d / 2) <= 1)%Q
  ∧ (JS.min 1 (d / 2) <= d / 2)%Q
  ∧ ((0 <= d)%Q → (JS.min 1 (d / 2) <= d)%Q)
  ∧ ((d <= 2)%Q → (JS.min 1 (d / 2) == d / 2)%Q)
  ∧ ((2 <= d)%Q → (JS.min 1 (d / 2) == 1)%Q).
Proof.
  unfold JS.min. destruct (Qle_bool 1 (d / 2)) eqn:Hle.
  - apply Qle_bool_iff in Hle. unfold Qdiv in *. change (/ 2)%Q with (1 # 2) in *.
    split_and!; intros; lra.
  - assert (Hlt : ¬ (1 <= d / 2)%Q) by (rewrite <- Qle_bool_iff; congruence).
    unfold Qdiv in *. change (/ 2)%Q with (1 # 2) in *.
    split_and!; intros; lra.
Qed.

(** C7, as the code has it.  When the download and the inspection
    succeed, the one frame the run captures is taken at [min(1, d/2)]
    seconds: at the midpoint of a video of at most two seconds, at one second
    of any longer one, and never beyond the end of the video. *)
Theorem thumbnail_timestamp env video w buffer probe metadata :
  downloadToBuffer env (gridFsFileId video) = inr buffer →
  writeFile env (tempVideoPath env) = None →
  ffprobe env (tempVideoPath env) = inr probe →
  Media.extractMetadataOf probe = inr metadata →
  Screenshots (tempVideoPath env) (tempThumbnailPath env)
     (JS.min 1 (Media.duration metadata / 2))
     ∈ calls (processVideo env video w).1
  ∧ (∀ videoPath outputPath t,
       Screenshots videoPath outputPath t ∈ calls (processVideo env video w).1 →
       Screenshots videoPath outputPath t ∈ calls w
       ∨ t = JS.min 1 (Media.duration metadata / 2))
  ∧ (JS.min 1 (Media.duration metadata / 2) <= 1)%Q
  ∧ (JS.min 1 (Media.duration metadata / 2) <= Media.duration metadata / 2)%Q
  ∧ ((0 <= Media.duration metadata)%Q →
     (JS.min 1 (Media.duration metadata / 2) <= Media.duration metadata)%Q)
  ∧ ((Media.duration metadata <= 2)%Q →
     (JS.min 1 (Media.duration metadata / 2) == Media.duration metadata / 2)%Q)
  ∧ ((2 <= Media.duration metadata)%Q →
     (JS.min 1 (Media.duration metadata / 2) == 1)%Q).
Proof.
  intros Hdl Hwf Hff Hmeta.
  assert (Hrun : ∃ ls cs,
    Forall notScreenshots cs
    ∧ (processVideo env video w).1
      = extend w ls
          ([DownloadToBuffer (gridFsFileId video); WriteFile (tempVideoPath env);
            Ffprobe (tempVideoPath env);
            Screenshots (tempVideoPath env) (tempThumbnailPath env)
              (JS.min 1 (Media.duration metadata / 2))] ++ cs)%list).
  { unfold processVideo, callDownloadToBuffer, callWriteFile, extractMetadata,
      generateThumbnail.
    rewrite Hdl, Hwf, Hff, Hmeta.
    erewrite tryCatch_bind_ok by reflexivity.
    erewrite tryCatch_bind_ok by reflexivity.
    erewrite tryCatch_bind_ok by reflexivity.
    erewrite tryCatch_bind_ok by reflexivity.
    rewrite tryCatch_bind_assoc.
    erewrite tryCatch_bind_ok by reflexivity.
    match goal with |- context [tryCatch ?m ?h ?w0] =>
      assert (Hloc : total notScreenshots (tryCatch m h)) end.
    { apply total_tryCatch.
      - unfold callReadFile, callUploadToGridFS, videoOf.
        repeat local_step; by apply local_callUnlink.
      - intros e. by apply processVideo_handler_total. }
    destruct Hloc as (ls & cs & a & Hcs & Hloc). rewrite Hloc.
    eexists _, cs. split; [done|]. unfold extend; simpl.
    rewrite <- !app_assoc. simpl. reflexivity. }
  destruct Hrun as (ls & cs & Hcs & ->).
  split_and!; try apply min_one_half_bounds.
  - unfold extend; simpl. set_solver.
  - intros videoPath outputPath t. unfold extend; simpl.
    rewrite !elem_of_app, !elem_of_cons.
    intros [?|[?|[?|[?|[?|Hin]]]]]; simplify_eq; auto.
    rewrite Forall_forall in Hcs. by destruct (Hcs _ Hin).
Qed.

(** C7, as the specification has it, fails on a video of one minute: the
    frame is taken at one second, in the first quarter of the video. *)
Lemma thumbnail_not_near_midpoint_at_60 :
  ¬ midpointThumbnailClaim (sampleEnv 60) sampleVideo (emptyWorld ∅).
Proof.
  intros Hclaim.
  destruct (Hclaim "/tmp/video-1700000000000.mp4" "/tmp/thumb-1700000000000.jpg" 1%Q)
    as (probe & metadata & Hprobe & Hmeta & [Hnear _] & _).
  { vm_compute. set_solver. }
  simpl in Hprobe. injection Hprobe as <-.
  vm_compute in Hmeta. injection Hmeta as <-.
  vm_compute in Hnear. by apply Hnear.
Qed.

Lemma stored_duration_is_rounded_witness :
  (processVideo (sampleEnv (57 # 10)) sampleVideo (emptyWorld ∅)).2
  = inr (Success
           (mkResultMetadata 6 (mkResolution 1920 1080) "h264"
              "mov,mp4,m4a,3gp,3g2,mj2" 1300000 true)
           "thumb-1700000000000-holiday.jpg" "65a1f0c2e4b0a1b2c3d4e5f7"
           Media.Safe [])
  ∧ ∃ probe,
      ffprobe (sampleEnv (57 # 10)) (tempVideoPath (sampleEnv (57 # 10))) = inr probe
      ∧ 6%Z = Qfloor (Media.f_duration (Media.p_format probe) + (1 # 2))
      ∧ (inject_Z 6 <= Media.f_duration (Media.p_format probe) + (1 # 2))%Q
      ∧ (Media.f_duration (Media.p_format probe) + (1 # 2) < inject_Z 6 + 1)%Q.
Proof.
  assert (Hrun : (processVideo (sampleEnv (57 # 10)) sampleVideo (emptyWorld ∅)).2
                 = inr (Success
                          (mkResultMetadata 6 (mkResolution 1920 1080) "h264"
                             "mov,mp4,m4a,3gp,3g2,mj2" 1300000 true)
                          "thumb-1700000000000-holiday.jpg" "65a1f0c2e4b0a1b2c3d4e5f7"
                          Media.Safe []))
    by (vm_compute; reflexivity).
  split; [exact Hrun|].
  exact (stored_duration_is_rounded _ _ _ _ _ _ _ _ Hrun).
Defined.

Lemma thumbnail_timestamp_witness :
  downloadToBuffer (sampleEnv 60) (gridFsFileId sampleVideo) = inr "video bytes"
  ∧ writeFile (sampleEnv 60) (tempVideoPath (sampleEnv 60)) = None
  ∧ ffprobe (sampleEnv 60) (tempVideoPath (sampleEnv 60)) = inr (sampleProbe 60)
  ∧ Media.extractMetadataOf (sampleProbe 60) = inr (sampleMetadata 60)
  ∧ Screenshots (tempVideoPath (sampleEnv 60)) (tempThumbnailPath (sampleEnv 60))
      (JS.min 1 (Media.duration (sampleMetadata 60) / 2))
      ∈ calls (processVideo (sampleEnv 60) sampleVideo (emptyWorld ∅)).1.
Proof.
  assert (H1 : downloadToBuffer (sampleEnv 60) (gridFsFileId sampleVideo) = inr "video bytes")
    by reflexivity.
  assert (H2 : writeFile (sampleEnv 60) (tempVideoPath (sampleEnv 60)) = None)
    by reflexivity.
  assert (H3 : ffprobe (sampleEnv 60) (tempVideoPath (sampleEnv 60)) = inr (sampleProbe 60))
    by reflexivity.
  assert (H4 : Media.extractMetadataOf (sampleProbe 60) = inr (sampleMetadata 60))
    by reflexivity.
  split; [exact H1|]. split; [exact H2|]. split; [exact H3|]. split; [exact H4|].
  exact (proj1 (thumbnail_timestamp (sampleEnv 60) sampleVideo (emptyWorld ∅)
                  "video bytes" (sampleProbe 60) (sampleMetadata 60) H1 H2 H3 H4)).
Defined.

End ProcessVideo.

(* ================================================================== *)
(** * Properties of the job body                                       *)
(* ================================================================== *)

Section ProcessJob.
Import Pipeline.

(** Unfolding of the job body down to the answers of its surroundings;
    [processVideo] is kept folded. *)
Ltac unfold_job :=
  unfold processJob, emitProcessingStatus, emitProcessingProgress, emitProcessingError,
    emitErrorEvent, emitEvent, notify, save, findById, logLine, tryCatch, bind, ret, throw.

(** C5, as the code has it.  When the lookup resolves to no record the job
    body returns without throwing; it makes no outside call, sends no
    notification, emits no event and leaves the store alone; all it does is
    write its two lines to the console, the second one an error line. *)
Theorem missing_record_aborts env videoId w :
  store w !! videoId = None →
  findByIdFault env (findCalls w) = None →
  (processJob env videoId w).2 = inr tt
  ∧ calls (processJob env videoId w).1 = calls w
  ∧ notifications (processJob env videoId w).1 = notifications w
  ∧ events (processJob env videoId w).1 = events w
  ∧ store (processJob env videoId w).1 = store w
  ∧ console (processJob env videoId w).1
    = (console w ++ [ConsoleLog ("Processing video " ++ videoId ++ "...");
                     ConsoleError ("Video " ++ videoId ++ " not found in database")])%list.
Proof.
  intros Hstore Hfind. unfold_job. simpl. rewrite Hfind, Hstore. simpl.
  rewrite <- app_assoc. done.
Qed.

(** C5, as the specification has it, fails: for an id without a record no
    [error] event is emitted, even with a listener registered. *)
Lemma missing_record_emits_no_event :
  ¬ missingRecordClaim (sampleEnv 60) "65a1f0c2e4b0a1b2c3d4e5f6" (emptyWorld ∅).
Proof.
  intros (_ & _ & error & Hin). vm_compute in Hin. by apply elem_of_nil in Hin.
Qed.

(** C10. With a socket server attached, a record that is found and
    saved, and a [processVideo] that resolves to a failure, the owner is sent,
    in this order: status processing, progress 0, 25 and 75, the error, and
    status failed. *)
Theorem progress_then_failure env videoId video w error :
  io env = true →
  findByIdFault env (findCalls w) = None →
  store w !! videoId = Some video →
  saveFault env (saveCalls w) = None →
  saveFault env (S (saveCalls w)) = None →
  (processVideo env (set_status InProcessing video) (emptyWorld ∅)).2
    = inr (Failure error) →
  notifications (processJob env videoId w).1
  = (notifications w
     ++ [StatusMsg ("user:" ++ ownerUserId video) videoId InProcessing None [];
         ProgressMsg ("user:" ++ ownerUserId video) videoId 0;
         ProgressMsg ("user:" ++ ownerUserId video) videoId 25;
         ProgressMsg ("user:" ++ ownerUserId video) videoId 75;
         ErrorMsg ("user:" ++ ownerUserId video) videoId error;
         StatusMsg ("user:" ++ ownerUserId video) videoId Failed None []])%list.
Proof.
  intros Hio Hfind Hstore Hsave1 Hsave2 Hfail.
  unfold_job. simpl. rewrite Hfind, Hstore, Hio. simpl. rewrite Hsave1. simpl.
  rewrite processVideo_frame, Hfail. simpl. rewrite Hsave2. simpl.
  rewrite <- !app_assoc. done.
Qed.

(** The two terminal configurations exclude each other. *)
Lemma configurations_exclusive v : ¬ (readyConfiguration v ∧ failedConfiguration v).
Proof. intros [(Hr & _) (Hf & _)]. congruence. Qed.

(** For a record as the upload handler creates it (no derived field, no
    error) and a store that answers every request, the job body returns and
    leaves the record in exactly one terminal configuration. *)
Lemma fresh_record_terminal env videoId video w :
  store w !! videoId = Some video →
  _id video = videoId →
  (∀ k, findByIdFault env k = None) →
  (∀ k, saveFault env k = None) →
  derivedUnpopulated video →
  processingError video = None →
  (processJob env videoId w).2 = inr tt
  ∧ ∃ v, store (processJob env videoId w).1 !! videoId = Some v
         ∧ (readyConfiguration v ∨ failedConfiguration v).
Proof.
  intros Hstore Hid Hfind Hsave (Hd & Hr & Hc & Hf & Ht & Hfl & Hs) Herr.
  destruct (processVideo_resolves env (set_status InProcessing video) (emptyWorld ∅))
    as [result Hres].
  unfold_job. simpl. rewrite Hfind, Hstore. simpl. rewrite Hsave. simpl.
  destruct (io env); simpl.
  all: rewrite processVideo_frame, Hres; simpl.
  all: destruct result as [md thumbnail fileId sens sensFlags|error]; simpl.
  all: rewrite Hsave; simpl; rewrite Hid.
  all: split; [done|]; eexists; split; [apply lookup_insert_eq|].
  all: first [ left; by repeat split
             | right; split_and!; simpl; by eauto ].
Qed.

(** C3.  The sample record, left failed by an earlier run and enqueued
    again, is processed with success: the job body returns, and the stored
    record has status ready and every derived field, and still carries the
    error of the earlier run; it is in neither terminal configuration. *)
Theorem reprocessed_record_keeps_error :
  (processJob (sampleEnv 60) (_id failedVideo)
     (emptyWorld {[_id failedVideo := failedVideo]})).2 = inr tt
  ∧ ∃ v,
      store (processJob (sampleEnv 60) (_id failedVideo)
               (emptyWorld {[_id failedVideo := failedVideo]})).1
        !! _id failedVideo = Some v
      ∧ status v = Ready
      ∧ derivedPopulated v
      ∧ processingError v = Some earlierError
      ∧ ¬ readyConfiguration v
      ∧ ¬ failedConfiguration v.
Proof.
  split; [vm_compute; reflexivity|].
  eexists. split; [vm_compute; reflexivity|].
  split_and!.
  - reflexivity.
  - repeat split; simpl; eauto.
  - reflexivity.
  - intros (_ & _ & H). discriminate H.
  - intros (H & _). discriminate H.
Qed.

Lemma missing_record_aborts_witness :
  store (emptyWorld ∅) !! "65a1f0c2e4b0a1b2c3d4e5f6" = None
  ∧ findByIdFault (sampleEnv 60) (findCalls (emptyWorld ∅)) = None
  ∧ (processJob (sampleEnv 60) "65a1f0c2e4b0a1b2c3d4e5f6" (emptyWorld ∅)).2 = inr tt
  ∧ calls (processJob (sampleEnv 60) "65a1f0c2e4b0a1b2c3d4e5f6" (emptyWorld ∅)).1 = [].
Proof.
  assert (H1 : store (emptyWorld ∅) !! "65a1f0c2e4b0a1b2c3d4e5f6" = None) by reflexivity.
  assert (H2 : findByIdFault (sampleEnv 60) (findCalls (emptyWorld ∅)) = None)
    by reflexivity.
  split; [exact H1|]. split; [exact H2|].
  pose proof (missing_record_aborts (sampleEnv 60) "65a1f0c2e4b0a1b2c3d4e5f6"
                (emptyWorld ∅) H1 H2) as (Hret & Hcalls & _).
  split; [exact Hret|exact Hcalls].
Defined.

Lemma progress_then_failure_witness :
  io brokenDownloadEnv = true
  ∧ (processVideo brokenDownloadEnv (set_status InProcessing sampleVideo) (emptyWorld ∅)).2
    = inr (Failure "Failed to download from GridFS: FileNotFound")
  ∧ notifications
      (processJob brokenDownloadEnv (_id sampleVideo)
         (emptyWorld {[_id sampleVideo := sampleVideo]})).1
    = [StatusMsg ("user:" ++ ownerUserId sampleVideo) (_id sampleVideo) InProcessing None [];
       ProgressMsg ("user:" ++ ownerUserId sampleVideo) (_id sampleVideo) 0;
       ProgressMsg ("user:" ++ ownerUserId sampleVideo) (_id sampleVideo) 25;
       ProgressMsg ("user:" ++ ownerUserId sampleVideo) (_id sampleVideo) 75;
       ErrorMsg ("user:" ++ ownerUserId sampleVideo) (_id sampleVideo)
         "Failed to download from GridFS: FileNotFound";
       StatusMsg ("user:" ++ ownerUserId sampleVideo) (_id sampleVideo) Failed None []].
Proof.
  assert (Hio : io brokenDownloadEnv = true) by reflexivity.
  assert (Hfail : (processVideo brokenDownloadEnv (set_status InProcessing sampleVideo)
                     (emptyWorld ∅)).2
                  = inr (Failure "Failed to download from GridFS: FileNotFound"))
    by (vm_compute; reflexivity).
  assert (Hstore : store (emptyWorld {[_id sampleVideo := sampleVideo]}) !! _id sampleVideo
                   = Some sampleVideo)
    by (vm_compute; reflexivity).
  split; [exact Hio|]. split; [exact Hfail|].
  exact (progress_then_failure brokenDownloadEnv (_id sampleVideo) sampleVideo
           (emptyWorld {[_id sampleVideo := sampleVideo]})
           "Failed to download from GridFS: FileNotFound"
           Hio eq_refl Hstore eq_refl eq_refl Hfail).
Defined.

(** The same holds the other way round: a record left ready by an earlier
    run and processed again without success is stored as failed with its
    derived fields still populated. *)
Remark reprocessed_record_keeps_fields :
  ∃ v,
    store (processJob brokenDownloadEnv (_id readyVideo)
             (emptyWorld {[_id readyVideo := readyVideo]})).1
      !! _id readyVideo = Some v
    ∧ status v = Failed
    ∧ is_Some (processingError v)
    ∧ derivedPopulated v
    ∧ ¬ failedConfiguration v.
Proof.
  eexists. split; [vm_compute; reflexivity|].
  split_and!; [reflexivity|by eexists|repeat split; by eexists|].
  intros (_ & _ & H & _). discriminate H.
Qed.

End ProcessJob.

(* ================================================================== *)
(** * Further properties of the processing queue                       *)
(* ================================================================== *)

Section QueueOrder.
Import Queue.

Lemma enqueuedIds_snoc log e :
  enqueuedIds (log ++ [e]) = (enqueuedIds log ++ from_option (λ v, [v]) [] (enqueuedId e))%list.
Proof. unfold enqueuedIds. rewrite omap_app. simpl. by destruct (enqueuedId e). Qed.

Lemma dispatchedIds_snoc log e :
  dispatchedIds (log ++ [e]) = (dispatchedIds log ++ from_option (λ v, [v]) [] (dispatchedId e))%list.
Proof. unfold dispatchedIds. rewrite omap_app. simpl. by destruct (dispatchedId e). Qed.

Lemma ordered_frame s s' :
  queue s' = queue s → emitted s' = emitted s → ordered s → ordered s'.
Proof. unfold ordered. by intros -> ->. Qed.

Lemma truthy_ne v : JS.truthy v = true ↔ v ≠ "".
Proof.
  unfold JS.truthy. rewrite negb_true_iff. split.
  - intros H ->. by rewrite String.eqb_refl in H.
  - intros H. by apply String.eqb_neq.
Qed.

Lemma processNext_ordered s : ordered s → ordered (processNext s).
Proof.
  intros Ho. unfold processNext.
  destruct (isRunning s); simpl; [|done].
  destruct (_ <=? _)%Z; [by eapply ordered_frame|].
  destruct (queue s) as [|v rest] eqn:Hq; [by eapply ordered_frame|].
  destruct Ho as [He Hq']. rewrite Hq in He, Hq'.
  apply Forall_cons in Hq' as [Hv Hrest].
  apply truthy_ne in Hv. rewrite Hv. simpl.
  split; simpl; [|done].
  rewrite enqueuedIds_snoc, dispatchedIds_snoc. simpl.
  rewrite app_nil_r, He, <- app_assoc. done.
Qed.

Lemma start_ordered s : ordered s → ordered (start s).
Proof.
  intros Ho. unfold start. destruct (isRunning s); [done|].
  apply processNext_ordered. destruct Ho as [He Hq]. split; simpl; [|done].
  rewrite enqueuedIds_snoc, dispatchedIds_snoc. simpl. by rewrite !app_nil_r.
Qed.

Lemma enqueue_ordered v s : v ≠ "" → ordered s → ordered (enqueue v s).
Proof.
  intros Hv [He Hq]. unfold enqueue. destruct (_ && _); [|done]. simpl.
  assert (Hpush : ordered (emit (Enqueued v) (set_queue (queue s ++ [v]) s))).
  { split; simpl.
    - rewrite enqueuedIds_snoc, dispatchedIds_snoc. simpl.
      by rewrite app_nil_r, He, app_assoc.
    - apply Forall_app. split; [done|]. by apply Forall_singleton. }
  destruct (isRunning s); simpl; [done|]. by apply start_ordered.
Qed.

Lemma step_ordered a s s' :
  keepsOrder a = true → step a s = Some s' → ordered s → ordered s'.
Proof.
  destruct a as [v| | | |i]; simpl; intros Ha H Ho; simplify_eq.
  - apply enqueue_ordered; [by apply truthy_ne|done].
  - by apply start_ordered.
  - destruct Ho as [He Hq]. split; simpl; [|done].
    rewrite enqueuedIds_snoc, dispatchedIds_snoc. simpl. by rewrite !app_nil_r.
  - unfold fire in H. destruct (pendingTasks s !! i) as [t|]; [|done].
    simplify_eq. destruct t.
    + apply processNext_ordered. by eapply ordered_frame.
    + destruct Ho as [He Hq]. split; simpl; [|done].
      rewrite enqueuedIds_snoc, dispatchedIds_snoc. simpl. by rewrite !app_nil_r.
    + apply processNext_ordered. by eapply ordered_frame.
Qed.

(** X1. First in, first out: as long as nobody calls [clear] and every id
    enqueued is a non-empty string, the ids are dispatched in the order in
    which they were accepted, and the pending list is what remains. *)
Theorem fifo_dispatch (m : Z) (tr : list Action) (s : State) :
  forallb keepsOrder tr = true →
  run tr (init m) = Some s →
  enqueuedIds (emitted s) = (dispatchedIds (emitted s) ++ queue s)%list.
Proof.
  intros Hk Hrun.
  assert (Ho : ordered (init m)) by (split; simpl; done).
  revert Hk Hrun Ho. generalize (init m).
  induction tr as [|a tr IH]; simpl; intros s0 Hk Hrun Ho.
  - simplify_eq. apply Ho.
  - apply andb_prop in Hk as [Ha Hk].
    destruct (step a s0) as [s1|] eqn:Hs; [|done].
    eapply IH; [done|done|]. by eapply step_ordered.
Qed.

Lemma fifo_dispatch_witness :
  forallb keepsOrder restartTrace = true
  ∧ run restartTrace (init 2) = Some afterRestarts
  ∧ enqueuedIds (emitted afterRestarts)
    = (dispatchedIds (emitted afterRestarts) ++ queue afterRestarts)%list.
Proof.
  assert (Hk : forallb keepsOrder restartTrace = true) by reflexivity.
  assert (Hrun : run restartTrace (init 2) = Some afterRestarts)
    by (vm_compute; reflexivity).
  split; [exact Hk|]. split; [exact Hrun|].
  exact (fifo_dispatch 2 restartTrace afterRestarts Hk Hrun).
Defined.

End QueueOrder.

Section QueueLifecycle.
Import Queue.

(** X2. In every reachable state no id is pending twice and no pending id
    is in flight. *)
Theorem queue_ids_unique (m : Z) (tr : list Action) (s : State) :
  run tr (init m) = Some s →
  NoDup (queue s) ∧ ∀ x, x ∈ queue s → x ∉ processing s.
Proof.
  intros Hrun. eapply run_wellFormed; [done|apply init_wellFormed].
Qed.

Lemma queue_ids_unique_witness :
  run restartTrace (init 2) = Some afterRestarts
  ∧ NoDup (queue afterRestarts)
  ∧ ∀ x, x ∈ queue afterRestarts → x ∉ processing afterRestarts.
Proof.
  assert (Hrun : run restartTrace (init 2) = Some afterRestarts)
    by (vm_compute; reflexivity).
  split; [exact Hrun|].
  exact (queue_ids_unique 2 restartTrace afterRestarts Hrun).
Defined.

(** X3. While the queue is stopped the loop dispatches nothing: resuming a
    continuation leaves the pending list and the stopped flag as they are,
    can only take ids out of the in-flight set, and does not add a
    continuation. *)
Theorem stopped_queue_dispatches_nothing (i : nat) (s s' : State) :
  isRunning s = false →
  step (Resume i) s = Some s' →
  queue s' = queue s
  ∧ isRunning s' = false
  ∧ processing s' ⊆ processing s
  ∧ dispatchedIds (emitted s') = dispatchedIds (emitted s)
  ∧ (length (pendingTasks s') ≤ length (pendingTasks s))%nat.
Proof.
  intros Hr. simpl. unfold fire.
  destruct (pendingTasks s !! i) as [t|] eqn:Ht; [|done].
  intros [= <-].
  assert (Hlen : (S (length (delete i (pendingTasks s))) = length (pendingTasks s))%nat).
  { apply lookup_lt_Some in Ht. rewrite length_delete; [lia|]. by apply lookup_lt_is_Some_2. }
  destruct t; unfold processNext, jobSettled; simpl; rewrite ?Hr; simpl.
  - split_and!; try done. lia.
  - split_and!; try done; [set_solver| |].
    + rewrite dispatchedIds_snoc. simpl. by rewrite app_nil_r.
    + rewrite length_app. simpl. lia.
  - split_and!; try done. lia.
Qed.

Lemma stopped_queue_dispatches_nothing_witness :
  isRunning stoppedBusy = false
  ∧ step (Resume 0) stoppedBusy
    = Some (mkState ["b"] ∅ 2 false [NextImmediate]
              [Enqueued "a"; Started; Processing "a"; Enqueued "b"; Stopped; Completed "a"])
  ∧ queue (mkState ["b"] ∅ 2 false [NextImmediate]
              [Enqueued "a"; Started; Processing "a"; Enqueued "b"; Stopped; Completed "a"])
    = queue stoppedBusy.
Proof.
  assert (Hr : isRunning stoppedBusy = false) by reflexivity.
  assert (Hs : step (Resume 0) stoppedBusy
               = Some (mkState ["b"] ∅ 2 false [NextImmediate]
                         [Enqueued "a"; Started; Processing "a"; Enqueued "b"; Stopped;
                          Completed "a"]))
    by (vm_compute; reflexivity).
  split; [exact Hr|]. split; [exact Hs|].
  exact (proj1 (stopped_queue_dispatches_nothing 0 stoppedBusy _ Hr Hs)).
Defined.

Lemma processNext_isRunning s : isRunning (processNext s) = isRunning s.
Proof.
  unfold processNext. destruct (isRunning s) eqn:Hr; simpl; [|done].
  destruct (_ <=? _)%Z; [done|].
  destruct (queue s) as [|v rest]; [done|]. by destruct (JS.truthy v).
Qed.

(** X4. [start] is idempotent: a second call changes nothing, it adds
    neither an event nor a second loop. *)
Theorem start_idempotent (s : State) : start (start s) = start s.
Proof.
  assert (Hr : isRunning (start s) = true).
  { unfold start. destruct (isRunning s) eqn:Hr; [done|].
    by rewrite processNext_isRunning. }
  unfold start at 1. by rewrite Hr.
Qed.

Lemma count_app {A} (p : A → bool) (l k : list A) :
  count p (l ++ k) = (count p l + count p k)%nat.
Proof. induction l as [|x l IH]; simpl; [done|]. rewrite IH. lia. Qed.

Lemma count_delete_lookup {A} (p : A → bool) (l : list A) i x :
  l !! i = Some x →
  count p l = ((if p x then 1 else 0) + count p (delete i l))%nat.
Proof.
  revert i. induction l as [|y l IH]; intros [|i] H; simplify_eq/=; [done|].
  rewrite (IH _ H). lia.
Qed.

Lemma processNext_accounted_from s :
  count isProcessing (emitted s)
  = (count isCompleted (emitted s) + count isAwaitingJob (pendingTasks s))%nat →
  (S (length (pendingTasks s)) ≤ count isStarted (emitted s))%nat →
  accounted (processNext s).
Proof.
  intros Hc Hl. unfold processNext, accounted.
  destruct (isRunning s); simpl; [|split; [done|lia]].
  destruct (_ <=? _)%Z; simpl.
  { rewrite count_app, length_app. simpl. split; lia. }
  destruct (queue s) as [|v rest]; simpl.
  { rewrite count_app, length_app. simpl. split; lia. }
  destruct (JS.truthy v); simpl; rewrite !count_app, length_app; simpl; split; lia.
Qed.

Lemma start_accounted s : accounted s → accounted (start s).
Proof.
  intros [Hc Hl]. unfold start. destruct (isRunning s); [done|].
  apply processNext_accounted_from; simpl; rewrite !count_app; simpl; lia.
Qed.

Lemma step_accounted a s s' : step a s = Some s' → accounted s → accounted s'.
Proof.
  destruct a as [v| | | |i]; simpl; intros H [Hc Hl]; simplify_eq.
  - unfold enqueue. destruct (_ && _); [|done]. simpl.
    assert (Hpush : accounted (emit (Enqueued v) (set_queue (queue s ++ [v]) s))).
    { split; simpl; rewrite !count_app; simpl; lia. }
    destruct (isRunning s); simpl; [done|]. by apply start_accounted.
  - by apply start_accounted.
  - split; simpl; rewrite !count_app; simpl; lia.
  - split; simpl; rewrite !count_app; simpl; lia.
  - unfold fire in H. destruct (pendingTasks s !! i) as [t|] eqn:Ht; [|done].
    simplify_eq.
    pose proof (count_delete_lookup isAwaitingJob _ _ _ Ht) as Hd.
    assert (Hlen : (S (length (delete i (pendingTasks s))) = length (pendingTasks s))%nat).
    { rewrite length_delete; [|by eexists].
      apply lookup_lt_Some in Ht. lia. }
    destruct t; simpl in Hd.
    + apply processNext_accounted_from; simpl; lia.
    + split; simpl; rewrite !count_app, ?length_app; simpl; lia.
    + apply processNext_accounted_from; simpl; lia.
Qed.

Lemma run_accounted tr : ∀ s s', run tr s = Some s' → accounted s → accounted s'.
Proof.
  induction tr as [|a tr IH]; simpl; intros s s' H Ha; [by simplify_eq|].
  destruct (step a s) as [s1|] eqn:Hs; [|done].
  eapply IH; [done|]. by eapply step_accounted.
Qed.

(** X5. Every job the loop has dispatched is either completed or still
    awaited by exactly one continuation: the number of [processing] events is
    the number of [completed] events plus the number of continuations
    suspended on a job body, also across [stop], [start] and [clear]. *)
Theorem dispatched_jobs_accounted (m : Z) (tr : list Action) (s : State) :
  run tr (init m) = Some s →
  count isProcessing (emitted s)
  = (count isCompleted (emitted s) + count isAwaitingJob (pendingTasks s))%nat.
Proof.
  intros Hrun. eapply run_accounted; [done|]. split; simpl; lia.
Qed.

Lemma dispatched_jobs_accounted_witness :
  run resetTrace (init 1) = Some afterReset
  ∧ count isProcessing (emitted afterReset)
    = (count isCompleted (emitted afterReset)
       + count isAwaitingJob (pendingTasks afterReset))%nat.
Proof.
  assert (Hrun : run resetTrace (init 1) = Some afterReset) by (vm_compute; reflexivity).
  split; [exact Hrun|].
  exact (dispatched_jobs_accounted 1 resetTrace afterReset Hrun).
Defined.

(** X6. The loop never multiplies on its own: there are at most as many
    suspended continuations as [start] has taken effect ([started] events);
    only a restart adds one. *)
Theorem loops_bounded_by_starts (m : Z) (tr : list Action) (s : State) :
  run tr (init m) = Some s →
  (length (pendingTasks s) ≤ count isStarted (emitted s))%nat.
Proof.
  intros Hrun. eapply run_accounted; [done|]. split; simpl; lia.
Qed.

Lemma loops_bounded_by_starts_witness :
  run restartTrace (init 2) = Some afterRestarts
  ∧ (length (pendingTasks afterRestarts) ≤ count isStarted (emitted afterRestarts))%nat.
Proof.
  assert (Hrun : run restartTrace (init 2) = Some afterRestarts)
    by (vm_compute; reflexivity).
  split; [exact Hrun|].
  exact (loops_bounded_by_starts 2 restartTrace afterRestarts Hrun).
Defined.

(** X7. Enqueueing a fresh id on a stopped queue with nothing pending and
    a free slot starts the queue and dispatches the id within the call: the
    statistics read right after it show nothing queued, one more job in
    flight, and a running queue. *)
Theorem enqueue_on_idle_queue_dispatches (v : string) (s : State) :
  v ≠ "" →
  isRunning s = false →
  queue s = [] →
  v ∉ processing s →
  (Z.of_nat (size (processing s)) < maxConcurrent s)%Z →
  getStats (enqueue v s)
  = mkStats 0 (S (size (processing s))) (maxConcurrent s) true
  ∧ processing (enqueue v s) = {[v]} ∪ processing s
  ∧ emitted (enqueue v s) = (emitted s ++ [Enqueued v; Started; Processing v])%list.
Proof.
  intros Hv Hr Hq Hp Hfree.
  unfold enqueue. rewrite Hq.
  rewrite (bool_decide_eq_false_2 (v ∈ [])) by apply not_elem_of_nil.
  rewrite (bool_decide_eq_false_2 _ Hp). simpl. rewrite Hr. simpl.
  unfold start. simpl. rewrite Hr. unfold processNext. simpl.
  destruct (Z.leb_spec (maxConcurrent s) (Z.of_nat (size (processing s)))) as [?|_]; [lia|].
  apply truthy_ne in Hv. rewrite Hv. simpl.
  unfold getStats. simpl. split_and!.
  - f_equal. rewrite size_union by set_solver. by rewrite size_singleton.
  - done.
  - by rewrite <- !app_assoc.
Qed.

Lemma enqueue_on_idle_queue_dispatches_witness :
  "a" ≠ "" ∧ isRunning idle = false ∧ queue idle = [] ∧ "a" ∉ processing idle
  ∧ (Z.of_nat (size (processing idle)) < maxConcurrent idle)%Z
  ∧ getStats (enqueue "a" idle) = mkStats 0 1 2 true.
Proof.
  assert (H1 : "a" ≠ "") by discriminate.
  assert (H2 : isRunning idle = false) by reflexivity.
  assert (H3 : queue idle = []) by reflexivity.
  assert (H4 : "a" ∉ processing idle) by (apply not_elem_of_empty).
  assert (H5 : (Z.of_nat (size (processing idle)) < maxConcurrent idle)%Z)
    by (vm_compute; reflexivity).
  split; [exact H1|]. split; [exact H2|]. split; [exact H3|]. split; [exact H4|].
  split; [exact H5|].
  exact (proj1 (enqueue_on_idle_queue_dispatches "a" idle H1 H2 H3 H4 H5)).
Defined.

End QueueLifecycle.

(* ================================================================== *)
(** * Further properties of the sensitivity classifier                 *)
(* ================================================================== *)

Section ClassifierRules.
Import Media.

Lemma Qltb_lt a b : JS.Qltb a b = true ↔ (a < b)%Q.
Proof.
  unfold JS.Qltb. rewrite negb_true_iff. split.
  - intros H. apply Qnot_le_lt. intros Hle. apply Qle_bool_iff in Hle. congruence.
  - intros H. destruct (Qle_bool b a) eqn:Hle; [|done].
    apply Qle_bool_iff in Hle. by apply Qlt_not_le in H.
Qed.

Lemma Qpos_nonzero c : (0 < c)%Q → ¬ (c == 0)%Q.
Proof. intros H E. rewrite E in H. exact (Qlt_irrefl _ H). Qed.

Lemma Qdiv_lt a b c : (0 < c)%Q → (a / c < b)%Q ↔ (a < b * c)%Q.
Proof.
  intros Hc. split.
  - intros H. apply (Qmult_lt_compat_r _ _ c) in H; [|assumption].
    assert (E : (a / c * c == a)%Q) by (field; by apply Qpos_nonzero).
    by rewrite E in H.
  - by apply Qlt_shift_div_r.
Qed.

Lemma Qlt_div a b c : (0 < c)%Q → (b < a / c)%Q ↔ (b * c < a)%Q.
Proof.
  intros Hc. split.
  - intros H. apply (Qmult_lt_compat_r _ _ c) in H; [|assumption].
    assert (E : (a / c * c == a)%Q) by (field; by apply Qpos_nonzero).
    by rewrite E in H.
  - by apply Qlt_shift_div_l.
Qed.

(** What each rule appends. *)
Lemma rule1_flags m a :
  flags (rule1 m a)
  = (flags a ++ if JS.Qltb (duration m) 5 then [shortFlag]
                else if JS.Qltb 3600 (duration m) then [longFlag] else [])%list.
Proof. unfold rule1. repeat case_match; simpl; by rewrite ?app_nil_r. Qed.

Lemma rule2_flags m a :
  flags (rule2 m a) = (flags a ++ if aspectCondition m then [aspectFlag] else [])%list.
Proof.
  unfold rule2, aspectCondition, divide.
  destruct (_ && _); simpl; [|by rewrite app_nil_r].
  destruct (_ || _); simpl; by rewrite ?app_nil_r.
Qed.

Lemma keywordLoop_flags ks text a :
  flags (keywordLoop ks text a)
  = (flags a ++ match List.find (λ k, JS.includes k text) ks with
                | Some k => [keywordFlag k]
                | None => []
                end)%list.
Proof.
  induction ks as [|k ks IH]; simpl; [by rewrite app_nil_r|].
  by destruct (JS.includes k text).
Qed.

Lemma rule4_flags m a :
  flags (rule4 m a)
  = (flags a ++ if JS.Qltb 0 (duration m)
                   && JS.Qltb (size m / duration m) 10000
                then [lowBitrateFlag] else [])%list.
Proof.
  unfold rule4, divide. destruct (JS.Qltb 0 (duration m)); simpl; [|by rewrite app_nil_r].
  destruct (JS.Qltb _ 10000); simpl; by rewrite ?app_nil_r.
Qed.

Lemma rule5_flags m a :
  flags (rule5 m a)
  = (flags a ++ if negb (bool_decide (is_Some (audio m))) && JS.Qltb 30 (duration m)
                then [noAudioFlag] else [])%list.
Proof. unfold rule5. destruct (_ && _); simpl; by rewrite ?app_nil_r. Qed.

(** The flags returned, rule by rule. *)
Lemma analyzeSensitivity_flags m t d :
  flags (analyzeSensitivity m t d)
  = ((if JS.Qltb (duration m) 5 then [shortFlag]
      else if JS.Qltb 3600 (duration m) then [longFlag] else [])
     ++ (if aspectCondition m then [aspectFlag] else [])
     ++ (match firstKeyword (textToCheck t d) with
         | Some k => [keywordFlag k]
         | None => []
         end)
     ++ (if JS.Qltb 0 (duration m) && JS.Qltb (size m / duration m) 10000
         then [lowBitrateFlag] else [])
     ++ (if negb (bool_decide (is_Some (audio m))) && JS.Qltb 30 (duration m)
         then [noAudioFlag] else []))%list.
Proof.
  unfold analyzeSensitivity, applyRules, rule3, firstKeyword.
  rewrite finalLevel_flags, rule5_flags, rule4_flags, keywordLoop_flags,
    rule2_flags, rule1_flags. simpl. by rewrite <- !app_assoc.
Qed.

Lemma elem_of_if_singleton (c : bool) (f g : string) :
  f ∈ (if c then [g] else []) ↔ c = true ∧ f = g.
Proof.
  destruct c; [rewrite list_elem_of_singleton|rewrite elem_of_nil]; naive_solver.
Qed.

(** Membership in the flags returned. *)
Lemma flag_elem m t d f :
  f ∈ flags (analyzeSensitivity m t d)
  ↔ (JS.Qltb (duration m) 5 = true ∧ f = shortFlag)
    ∨ (JS.Qltb (duration m) 5 = false ∧ JS.Qltb 3600 (duration m) = true ∧ f = longFlag)
    ∨ (aspectCondition m = true ∧ f = aspectFlag)
    ∨ (∃ k, firstKeyword (textToCheck t d) = Some k ∧ f = keywordFlag k)
    ∨ (JS.Qltb 0 (duration m) && JS.Qltb (size m / duration m) 10000 = true
       ∧ f = lowBitrateFlag)
    ∨ (negb (bool_decide (is_Some (audio m))) && JS.Qltb 30 (duration m) = true
       ∧ f = noAudioFlag).
Proof.
  rewrite analyzeSensitivity_flags, !elem_of_app, !elem_of_if_singleton.
  assert (H1 : f ∈ (if JS.Qltb (duration m) 5 then [shortFlag]
                    else if JS.Qltb 3600 (duration m) then [longFlag] else [])
               ↔ (JS.Qltb (duration m) 5 = true ∧ f = shortFlag)
                 ∨ (JS.Qltb (duration m) 5 = false
                    ∧ JS.Qltb 3600 (duration m) = true ∧ f = longFlag)).
  { destruct (JS.Qltb (duration m) 5).
    - rewrite list_elem_of_singleton. naive_solver.
    - rewrite elem_of_if_singleton. naive_solver. }
  assert (H3 : f ∈ match firstKeyword (textToCheck t d) with
                   | Some k => [keywordFlag k]
                   | None => []
                   end
               ↔ ∃ k, firstKeyword (textToCheck t d) = Some k ∧ f = keywordFlag k).
  { destruct (firstKeyword (textToCheck t d)).
    - rewrite list_elem_of_singleton. naive_solver.
    - rewrite elem_of_nil. naive_solver. }
  rewrite H1, H3. tauto.
Qed.

Lemma keywordFlag_inj k k' : keywordFlag k = keywordFlag k' → k = k'.
Proof. unfold keywordFlag. intros H. cbv [String.append] in H. by simplify_eq. Qed.

(** The fixed flags differ from one another and from every keyword flag. *)
Ltac other_flag :=
  match goal with
  | H : shortFlag = _ |- _ => by inversion H
  | H : longFlag = _ |- _ => by inversion H
  | H : aspectFlag = _ |- _ => by inversion H
  | H : lowBitrateFlag = _ |- _ => by inversion H
  | H : noAudioFlag = _ |- _ => by inversion H
  | H : keywordFlag _ = shortFlag |- _ => by inversion H
  | H : keywordFlag _ = longFlag |- _ => by inversion H
  | H : keywordFlag _ = aspectFlag |- _ => by inversion H
  | H : keywordFlag _ = lowBitrateFlag |- _ => by inversion H
  | H : keywordFlag _ = noAudioFlag |- _ => by inversion H
  end.

Ltac flag_cases H :=
  apply flag_elem in H;
  destruct H as [[? ?]|[(? & ? & ?)|[[? ?]|[(? & ? & ?)|[[? ?]|[? ?]]]]]];
  try other_flag.

(** X8. Rule 1: the short-duration flag is raised exactly when the
    duration is below 5 seconds, the long-duration flag exactly when it is
    above 3600 seconds, and never both. *)
Theorem duration_flags (m : Metadata) (title description : option string) :
  (shortFlag ∈ flags (analyzeSensitivity m title description) ↔ (duration m < 5)%Q)
  ∧ (longFlag ∈ flags (analyzeSensitivity m title description) ↔ (3600 < duration m)%Q)
  ∧ ¬ (shortFlag ∈ flags (analyzeSensitivity m title description)
       ∧ longFlag ∈ flags (analyzeSensitivity m title description)).
Proof.
  assert (Hs : shortFlag ∈ flags (analyzeSensitivity m title description)
               ↔ (duration m < 5)%Q).
  { split.
    - intros H. flag_cases H. by apply Qltb_lt.
    - intros H. apply flag_elem. left. split; [by apply Qltb_lt|done]. }
  assert (Hl : longFlag ∈ flags (analyzeSensitivity m title description)
               ↔ (3600 < duration m)%Q).
  { split.
    - intros H. flag_cases H. by apply Qltb_lt.
    - intros H. apply flag_elem. right; left. split_and!; [|by apply Qltb_lt|done].
      destruct (JS.Qltb (duration m) 5) eqn:H5; [|done].
      apply Qltb_lt in H5. lra. }
  split; [done|]. split; [done|].
  rewrite Hs, Hl. intros [? ?]. lra.
Qed.

(** X9. Rule 2: the aspect-ratio flag is raised exactly when width and
    height are both positive and the picture is more than twice as high as
    wide or more than three times as wide as high. *)
Theorem aspect_flag (m : Metadata) (title description : option string) :
  aspectFlag ∈ flags (analyzeSensitivity m title description)
  ↔ ∃ v, video m = Some v
         ∧ (0 < width v)%Z ∧ (0 < height v)%Z
         ∧ (2 * width v < height v ∨ 3 * height v < width v)%Z.
Proof.
  assert (Hc : aspectCondition m = true
               ↔ ∃ v, video m = Some v
                      ∧ (0 < width v)%Z ∧ (0 < height v)%Z
                      ∧ (2 * width v < height v ∨ 3 * height v < width v)%Z).
  { unfold aspectCondition. destruct (video m) as [v|]; simpl.
    - rewrite !andb_true_iff, orb_true_iff, !Z.ltb_lt, !Qltb_lt.
      split.
      + intros [[Hw Hh] Hr]. exists v. split_and!; try done.
        assert (Hh' : (0 < inject_Z (height v))%Q) by (unfold Qlt; simpl; lia).
        rewrite (Qdiv_lt _ _ _ Hh'), (Qlt_div _ _ _ Hh') in Hr.
        unfold Qlt, Qmult, inject_Z in Hr. cbn [Qnum Qden] in Hr. lia.
      + intros (v' & [= <-] & Hw & Hh & Hr). split; [done|].
        assert (Hh' : (0 < inject_Z (height v))%Q) by (unfold Qlt; simpl; lia).
        rewrite (Qdiv_lt _ _ _ Hh'), (Qlt_div _ _ _ Hh').
        unfold Qlt, Qmult, inject_Z. cbn [Qnum Qden]. lia.
    - split; [done|]. by intros (v & ? & _). }
  rewrite <- Hc. split.
  - intros H. by flag_cases H.
  - intros H. apply flag_elem. right; right; left. done.
Qed.


(** X11. Rule 5: the no-audio flag is raised exactly when there is no
    audio stream and the duration is above 30 seconds. *)
Theorem no_audio_flag (m : Metadata) (title description : option string) :
  noAudioFlag ∈ flags (analyzeSensitivity m title description)
  ↔ audio m = None ∧ (30 < duration m)%Q.
Proof.
  assert (Hc : negb (bool_decide (is_Some (audio m))) && JS.Qltb 30 (duration m) = true
               ↔ audio m = None ∧ (30 < duration m)%Q).
  { rewrite andb_true_iff, negb_true_iff, bool_decide_eq_false, Qltb_lt.
    by rewrite <- eq_None_not_Some. }
  rewrite <- Hc. split.
  - intros H. by flag_cases H.
  - intros H. apply flag_elem. do 5 right. done.
Qed.

Lemma find_first {A} (p : A → bool) (l : list A) (x : A) :
  List.find p l = Some x
  ↔ ∃ before after, l = (before ++ x :: after)%list ∧ p x = true
                    ∧ Forall (λ y, p y = false) before.
Proof.
  induction l as [|y l IH]; simpl.
  - split; [done|]. intros (before & after & H & _). by destruct before.
  - destruct (p y) eqn:Hy.
    + split.
      * intros [= ->]. exists [], l. by split_and!.
      * intros (before & after & H & Hx & Hb). destruct before as [|z before].
        -- by simplify_eq/=.
        -- simplify_eq/=. apply Forall_cons in Hb as [Hz _]. congruence.
    + rewrite IH. split.
      * intros (before & after & -> & Hx & Hb). exists (y :: before), after.
        split_and!; [done|done|]. by apply Forall_cons.
      * intros (before & after & H & Hx & Hb). destruct before as [|z before].
        -- simplify_eq/=. congruence.
        -- simplify_eq/=. apply Forall_cons in Hb as [_ Hb]. by exists before, after.
Qed.

(** X12. Rule 3 reports the first keyword only: the flag of a keyword is
    raised exactly when that keyword occurs in the lower-cased title and
    description and no keyword before it in the list does; so at most one
    keyword flag is raised, whatever the text contains. *)
Theorem first_keyword_only (m : Metadata) (title description : option string) (k : string) :
  keywordFlag k ∈ flags (analyzeSensitivity m title description)
  ↔ ∃ before after,
      sensitiveKeywords = (before ++ k :: after)%list
      ∧ JS.includes k (textToCheck title description) = true
      ∧ Forall (λ k', JS.includes k' (textToCheck title description) = false) before.
Proof.
  rewrite <- (find_first (λ k', JS.includes k' (textToCheck title description))).
  fold (firstKeyword (textToCheck title description)). split.
  - intros H. flag_cases H.
    match goal with H : keywordFlag _ = keywordFlag _ |- _ =>
      apply keywordFlag_inj in H; by subst end.
  - intros H. apply flag_elem. do 3 right. left. by exists k.
Qed.

(** X13. The level is safe exactly when no flag was raised. *)
Theorem safe_iff_no_flags (m : Metadata) (title description : option string) :
  sensitivity (analyzeSensitivity m title description) = Safe
  ↔ flags (analyzeSensitivity m title description) = [].
Proof.
  unfold analyzeSensitivity. rewrite finalLevel_flags.
  pose proof (applyRules_sensitivity m title description) as Hs.
  rewrite finalLevel_spec.
  - rewrite Hs. unfold specFinalLevel.
    destruct (keywordMatch title description) eqn:Hk; simpl.
    + apply applyRules_flags_match with (m := m) in Hk.
      split; [done|]. intros E. rewrite E in Hk. simpl in Hk. lia.
    + destruct (flags (applyRules m title description)) as [|f [|f' [|f'' l]]]; by simpl.
  - rewrite Hs. destruct (keywordMatch title description) eqn:Hk; [|done].
    intros _. by apply applyRules_flags_match.
  - rewrite Hs. by destruct (keywordMatch title description).
Qed.

Lemma lowerChar_idem c : JS.lowerChar (JS.lowerChar c) = JS.lowerChar c.
Proof. by destruct c as [[] [] [] [] [] [] [] []]. Qed.

Lemma toLowerCase_idem s : JS.toLowerCase (JS.toLowerCase s) = JS.toLowerCase s.
Proof. induction s as [|c s IH]; simpl; [done|]. by rewrite lowerChar_idem, IH. Qed.

Lemma toLowerCase_app s1 s2 :
  JS.toLowerCase (s1 ++ s2) = JS.toLowerCase s1 ++ JS.toLowerCase s2.
Proof. induction s1 as [|c s1 IH]; simpl; [done|]. by rewrite IH. Qed.

(** X14. The classifier is case-insensitive: lower-casing the title and
    the description beforehand changes neither the flags nor the level. *)
Theorem classifier_ignores_case (m : Metadata) (title description : option string) :
  analyzeSensitivity m (JS.toLowerCase <$> title) (JS.toLowerCase <$> description)
  = analyzeSensitivity m title description.
Proof.
  assert (Ht : textToCheck (JS.toLowerCase <$> title) (JS.toLowerCase <$> description)
               = textToCheck title description).
  { unfold textToCheck. rewrite !toLowerCase_app.
    destruct title, description; simpl; by rewrite ?toLowerCase_idem. }
  unfold analyzeSensitivity, applyRules, rule3. by rewrite Ht.
Qed.

End ClassifierRules.

(* ================================================================== *)
(** * Further properties of the processing of one video                *)
(* ================================================================== *)

Section ProcessVideoOutcomes.
Import Pipeline.

Ltac unfold_media :=
  unfold processVideo, callDownloadToBuffer, callWriteFile, callReadFile, callUnlink,
    callUploadToGridFS, extractMetadata, generateThumbnail, videoOf, answer, outcome,
    tryCatch, bind, ret, throw, logLine, recordCall.

(** X15. [processVideo] never rejects: whatever fails, it resolves to a
    result, and it touches neither the record store nor the notifications
    nor the events of the queue. *)
Theorem processVideo_always_resolves env video w :
  (∃ result, (processVideo env video w).2 = inr result)
  ∧ store (processVideo env video w).1 = store w
  ∧ notifications (processVideo env video w).1 = notifications w
  ∧ events (processVideo env video w).1 = events w
  ∧ findCalls (processVideo env video w).1 = findCalls w
  ∧ saveCalls (processVideo env video w).1 = saveCalls w.
Proof.
  destruct (processVideo_total env video) as (ls & cs & r & _ & H).
  rewrite H. simpl. split_and!; eauto.
Qed.



Lemma find_none_forall {A} (p : A → bool) (l : list A) :
  Forall (λ x, p x = false) l → List.find p l = None.
Proof. induction 1 as [|x l Hx _ IH]; simpl; [done|]. by rewrite Hx. Qed.

(** X17. A file without a video stream is a failure with the message
    "No video stream found": no frame is captured and nothing is uploaded;
    after the download, the write and the probe only the clean-up runs. *)
Theorem no_video_stream env video w buffer probe :
  downloadToBuffer env (gridFsFileId video) = inr buffer →
  writeFile env (tempVideoPath env) = None →
  ffprobe env (tempVideoPath env) = inr probe →
  Forall (λ s, isVideoStream s = false) (Media.streams probe) →
  (processVideo env video w).2 = inr (Failure "No video stream found")
  ∧ calls (processVideo env video w).1
    = (calls w ++ [DownloadToBuffer (gridFsFileId video); WriteFile (tempVideoPath env);
                   Ffprobe (tempVideoPath env);
                   Unlink (tempVideoPath env); Unlink (tempThumbnailPath env)])%list.
Proof.
  intros Hdl Hwf Hff Hnone.
  assert (Hmeta : Media.extractMetadataOf probe = inl "No video stream found").
  { pose proof (find_none_forall _ _ Hnone) as Hfind.
    unfold isVideoStream in Hfind.
    unfold Media.extractMetadataOf. by rewrite Hfind. }
  unfold_media. simpl. rewrite Hdl. simpl. rewrite Hwf. simpl. rewrite Hff, Hmeta. simpl.
  destruct (unlink env (tempVideoPath env)), (unlink env (tempThumbnailPath env));
    simpl; by rewrite <- !app_assoc.
Qed.

Lemma no_video_stream_witness :
  downloadToBuffer audioOnlyEnv (gridFsFileId sampleVideo) = inr "audio bytes"
  ∧ writeFile audioOnlyEnv (tempVideoPath audioOnlyEnv) = None
  ∧ ffprobe audioOnlyEnv (tempVideoPath audioOnlyEnv) = inr audioOnlyProbe
  ∧ Forall (λ s, isVideoStream s = false) (Media.streams audioOnlyProbe)
  ∧ (processVideo audioOnlyEnv sampleVideo (emptyWorld ∅)).2
    = inr (Failure "No video stream found").
Proof.
  assert (H1 : downloadToBuffer audioOnlyEnv (gridFsFileId sampleVideo) = inr "audio bytes")
    by reflexivity.
  assert (H2 : writeFile audioOnlyEnv (tempVideoPath audioOnlyEnv) = None) by reflexivity.
  assert (H3 : ffprobe audioOnlyEnv (tempVideoPath audioOnlyEnv) = inr audioOnlyProbe)
    by reflexivity.
  assert (H4 : Forall (λ s, isVideoStream s = false) (Media.streams audioOnlyProbe))
    by (repeat constructor).
  split; [exact H1|]. split; [exact H2|]. split; [exact H3|]. split; [exact H4|].
  exact (proj1 (no_video_stream audioOnlyEnv sampleVideo (emptyWorld ∅) _ _ H1 H2 H3 H4)).
Defined.

Lemma handler_run env e w :
  calls ((logLine (ConsoleError ("Video processing error: " ++ e)) ;;
          tryCatch (callUnlink env (tempVideoPath env)) (λ _, ret tt) ;;
          tryCatch (callUnlink env (tempThumbnailPath env)) (λ _, ret tt) ;;
          ret (Failure e)) w).1
  = (calls w ++ [Unlink (tempVideoPath env); Unlink (tempThumbnailPath env)])%list
  ∧ ((logLine (ConsoleError ("Video processing error: " ++ e)) ;;
      tryCatch (callUnlink env (tempVideoPath env)) (λ _, ret tt) ;;
      tryCatch (callUnlink env (tempThumbnailPath env)) (λ _, ret tt) ;;
      ret (Failure e)) w).2 = inr (Failure e).
Proof.
  unfold bind, logLine, tryCatch, callUnlink, bind, recordCall, outcome, throw, ret. simpl.
  destruct (unlink env (tempVideoPath env)), (unlink env (tempThumbnailPath env));
    simpl; by rewrite <- !app_assoc.
Qed.

Lemma cleanup_at env video w :
  Unlink (tempVideoPath env) ∈ calls (processVideo env video w).1
  ∧ ((∃ e, (processVideo env video w).2 = inr (Failure e)) →
     Unlink (tempThumbnailPath env) ∈ calls (processVideo env video w).1)
  ∧ (unlink env (tempVideoPath env) = None →
     Unlink (tempThumbnailPath env) ∈ calls (processVideo env video w).1).
Proof.
  unfold processVideo, tryCatch.
  destruct (bind _ _ w) as [w1 [e|r]] eqn:Hbody.
  { match goal with |- context [bind ?m ?k w1] => change (bind m k w1) with
        ((logLine (ConsoleError ("Video processing error: " ++ e)) ;;
          tryCatch (callUnlink env (tempVideoPath env)) (λ _, ret tt) ;;
          tryCatch (callUnlink env (tempThumbnailPath env)) (λ _, ret tt) ;;
          ret (Failure e)) w1) end.
    destruct (handler_run env e w1) as [-> _]. set_solver. }
  apply bind_inr in Hbody as (_ & w2 & _ & Hbody).
  apply bind_inr in Hbody as (buffer & w3 & _ & Hbody).
  apply bind_inr in Hbody as (_ & w4 & _ & Hbody).
  apply bind_inr in Hbody as (metadata & w5 & _ & Hbody).
  apply bind_inr in Hbody as (_ & w6 & _ & Hbody).
  apply bind_inr in Hbody as (thumbnailBuffer & w7 & _ & Hbody).
  apply bind_inr in Hbody as (uploadResult & w8 & _ & Hbody).
  apply bind_inr in Hbody as (u & w9 & Hclean & Hbody).
  apply bind_inr in Hbody as (v & w10 & Hv & Hbody).
  unfold ret in Hbody. unfold videoOf, throw, ret in Hv.
  destruct (Media.video metadata); simplify_eq. destruct u.
  revert Hclean.
  unfold tryCatch, bind, callUnlink, bind, recordCall, outcome, throw, ret, logLine.
  simpl.
  destruct (unlink env (tempVideoPath env)) eqn:Hu1; simpl.
  - intros [= <-]. simpl. split_and!; [set_solver| |done].
    intros (e & ?). done.
  - destruct (unlink env (tempThumbnailPath env)); simpl;
      intros [= <-]; simpl; split_and!; set_solver.
Qed.

(** X18. Clean-up of the temporary files: every run, whatever its
    outcome, tries to delete the downloaded video; the thumbnail file is
    tried too whenever the run fails, or the deletion of the video file went
    well. *)
Theorem temporary_files_cleaned env video w :
  ∃ cs,
    calls (processVideo env video w).1 = (calls w ++ cs)%list
    ∧ Unlink (tempVideoPath env) ∈ cs
    ∧ ((∃ e, (processVideo env video w).2 = inr (Failure e)) →
       Unlink (tempThumbnailPath env) ∈ cs)
    ∧ (unlink env (tempVideoPath env) = None → Unlink (tempThumbnailPath env) ∈ cs).
Proof.
  destruct (processVideo_total env video) as (ls & cs & r & _ & H).
  exists cs. split; [by rewrite H|].
  pose proof (cleanup_at env video (emptyWorld ∅)) as Hc.
  rewrite (H w). rewrite (H (emptyWorld ∅)) in Hc. simpl in Hc. done.
Qed.

Lemma existsb_find {A} (p : A → bool) (l : list A) :
  existsb p l = bool_decide (is_Some (List.find p l)).
Proof.
  induction l as [|x l IH]; simpl; [done|].
  destruct (p x); simpl; [done|exact IH].
Qed.

(** X19. What a successful result reports comes from the first video
    stream of the probe: its width, height and codec; the container format
    is the probe's; [hasAudio] tells whether the probe has an audio stream;
    the level and the flags are the classifier's on that metadata and the
    record's own title and description. *)
Theorem success_reports_first_video_stream
    env video w md thumbnail fileId sens sensFlags :
  (processVideo env video w).2 = inr (Success md thumbnail fileId sens sensFlags) →
  ∃ probe videoStream metadata,
    ffprobe env (tempVideoPath env) = inr probe
    ∧ List.find isVideoStream (Media.streams probe) = Some videoStream
    ∧ Media.extractMetadataOf probe = inr metadata
    ∧ r_resolution md
      = mkResolution (Media.s_width videoStream) (Media.s_height videoStream)
    ∧ r_codec md = Media.codec_name videoStream
    ∧ r_format md = Media.format_name (Media.p_format probe)
    ∧ hasAudio md = existsb isAudioStream (Media.streams probe)
    ∧ sens = Media.sensitivity
               (Media.analyzeSensitivity metadata (Some (title video)) (description video))
    ∧ sensFlags = Media.flags
               (Media.analyzeSensitivity metadata (Some (title video)) (description video)).
Proof.
  intros (probe & metadata & v & Hprobe & Hmeta & Hv & -> & _ & -> & ->)%processVideo_success_inv.
  unfold Media.extractMetadataOf in Hmeta.
  destruct (List.find (λ s, String.eqb (Media.codec_type s) "video") (Media.streams probe))
    as [videoStream|] eqn:Hfind; [|done].
  exists probe, videoStream, metadata.
  assert (Haudio : bool_decide (is_Some (Media.audio metadata))
                   = existsb isAudioStream (Media.streams probe)).
  { injection Hmeta as <-. cbn [Media.audio].
    rewrite (existsb_find isAudioStream). unfold isAudioStream.
    by destruct (List.find (λ s, String.eqb (Media.codec_type s) "audio")
                   (Media.streams probe)). }
  split_and!; try done.
  - unfold Media.extractMetadataOf. by rewrite Hfind.
  - injection Hmeta as <-. simpl in Hv. by simplify_eq.
  - injection Hmeta as <-. simpl in Hv. by simplify_eq.
  - by injection Hmeta as <-.
Qed.

Lemma success_reports_first_video_stream_witness :
  (processVideo (sampleEnv 60) sampleVideo (emptyWorld ∅)).2
  = inr (Success
           (mkResultMetadata 60 (mkResolution 1920 1080) "h264"
              "mov,mp4,m4a,3gp,3g2,mj2" 1300000 true)
           "thumb-1700000000000-holiday.jpg" "65a1f0c2e4b0a1b2c3d4e5f7"
           Media.Safe [])
  ∧ ∃ probe videoStream,
      ffprobe (sampleEnv 60) (tempVideoPath (sampleEnv 60)) = inr probe
      ∧ List.find isVideoStream (Media.streams probe) = Some videoStream.
Proof.
  assert (Hrun : (processVideo (sampleEnv 60) sampleVideo (emptyWorld ∅)).2
                 = inr (Success
                          (mkResultMetadata 60 (mkResolution 1920 1080) "h264"
                             "mov,mp4,m4a,3gp,3g2,mj2" 1300000 true)
                          "thumb-1700000000000-holiday.jpg" "65a1f0c2e4b0a1b2c3d4e5f7"
                          Media.Safe []))
    by (vm_compute; reflexivity).
  split; [exact Hrun|].
  destruct (success_reports_first_video_stream _ _ _ _ _ _ _ _ Hrun)
    as (probe & videoStream & _ & Hp & Hf & _).
  exists probe, videoStream. split; [exact Hp|exact Hf].
Defined.

Lemma hasDot_app_dot base ext : Media.hasDot (base ++ "." ++ ext) = true.
Proof.
  induction base as [|c base IH]; [done|].
  change (Media.hasDot (String c (base ++ "." ++ ext)) = true).
  cbn [Media.hasDot]. rewrite IH. by rewrite orb_true_r.
Qed.

(** X20. The name of the thumbnail: in a stored file name that ends in an
    extension (a dot followed by one or more characters other than a dot) the
    extension is replaced by ".jpg" and everything before it is kept; a name
    without a dot is left as it is. *)
Theorem thumbnail_name (base ext : string) :
  (Media.hasDot ext = false → ext ≠ "" →
   Media.replaceExtension (base ++ "." ++ ext) = base ++ ".jpg")
  ∧ (Media.hasDot base = false → Media.replaceExtension base = base).
Proof.
  split.
  - intros Hext Hne. induction base as [|c base IH].
    + change (Media.replaceExtension (String "."%char ext) = ".jpg").
      cbn [Media.replaceExtension]. rewrite Hext.
      apply String.eqb_neq in Hne. by rewrite Hne.
    + change (Media.replaceExtension (String c (base ++ "." ++ ext))
              = String c (base ++ ".jpg")).
      cbn [Media.replaceExtension]. rewrite hasDot_app_dot.
      rewrite andb_false_r. simpl. by rewrite IH.
  - induction base as [|c base IH]; simpl; [done|].
    intros [Hc Hb]%orb_false_elim. rewrite Hc. simpl. by rewrite IH.
Qed.

Lemma thumbnail_name_witness :
  Media.hasDot "mp4" = false ∧ "mp4" ≠ ""
  ∧ Media.replaceExtension ("1700000000000-holiday" ++ "." ++ "mp4")
    = "1700000000000-holiday" ++ ".jpg".
Proof.
  assert (H1 : Media.hasDot "mp4" = false) by reflexivity.
  assert (H2 : "mp4" ≠ "") by discriminate.
  split; [exact H1|]. split; [exact H2|].
  exact (proj1 (thumbnail_name "1700000000000-holiday" "mp4") H1 H2).
Defined.

End ProcessVideoOutcomes.

(* ================================================================== *)
(** * Further properties of the job body                               *)
(* ================================================================== *)

Section JobBodyOutcomes.
Import Pipeline.

Ltac unfold_job :=
  unfold processJob, emitProcessingStatus, emitProcessingProgress, emitProcessingError,
    emitErrorEvent, emitEvent, notify, save, findById, logLine, tryCatch, bind, ret, throw.

Lemma safe_bind {A B} (m : M A) (k : A → M B) :
  safe m → (∀ a, safe (k a)) → safe (bind m k).
Proof.
  intros Hm Hk w. unfold bind. destruct (Hm w) as [a Ha].
  destruct (m w) as [w' r]. simpl in Ha. subst r. apply Hk.
Qed.

Lemma safe_tryCatch {A} (m : M A) (h : string → M A) :
  (∀ e, safe (h e)) → safe (tryCatch m h).
Proof.
  intros Hh w. unfold tryCatch. destruct (m w) as [w' [e|a]]; [apply Hh|by exists a].
Qed.

Lemma safe_logLine l : safe (logLine l).
Proof. intros w. by exists tt. Qed.

(** X21. With a listener for the queue's [error] event registered, the
    job body never throws: whatever the database, the blob store and the
    inspector answer, [processJob] returns. *)
Theorem job_body_never_throws env videoId w :
  hasErrorListener env = true →
  (processJob env videoId w).2 = inr tt.
Proof.
  intros Hl.
  assert (Hsafe : safe (processJob env videoId)).
  { unfold processJob. apply safe_bind; [apply safe_logLine|intros _].
    apply safe_tryCatch. intros e.
    apply safe_bind; [apply safe_logLine|intros _].
    apply safe_bind.
    - apply safe_tryCatch. intros e'. apply safe_logLine.
    - intros _. unfold emitErrorEvent. rewrite Hl. intros w'. by exists tt. }
  destruct (Hsafe w) as [[] H]. exact H.
Qed.

Lemma job_body_never_throws_witness :
  hasErrorListener (databaseDownEnv true) = true
  ∧ (processJob (databaseDownEnv true) (_id sampleVideo)
       (emptyWorld {[_id sampleVideo := sampleVideo]})).2 = inr tt.
Proof.
  assert (H : hasErrorListener (databaseDownEnv true) = true) by reflexivity.
  split; [exact H|].
  exact (job_body_never_throws (databaseDownEnv true) (_id sampleVideo)
           (emptyWorld {[_id sampleVideo := sampleVideo]}) H).
Defined.

(** X22. When the first lookup of the record is rejected, the video is
    never processed (no outside call is made); with a listener registered the
    job body returns after emitting one [error] event that carries the
    database's message. *)
Theorem lookup_rejected env videoId w e :
  findByIdFault env (findCalls w) = Some e →
  hasErrorListener env = true →
  (processJob env videoId w).2 = inr tt
  ∧ calls (processJob env videoId w).1 = calls w
  ∧ events (processJob env videoId w).1 = (events w ++ [ErrorEvent videoId e])%list.
Proof.
  intros Hfind Hl. unfold_job. simpl. rewrite Hfind, Hl. simpl.
  repeat (case_match; simpl; simplify_eq); done.
Qed.

Lemma lookup_rejected_witness :
  findByIdFault (databaseDownEnv true)
    (findCalls (emptyWorld {[_id sampleVideo := sampleVideo]})) = Some "connection timed out"
  ∧ hasErrorListener (databaseDownEnv true) = true
  ∧ events (processJob (databaseDownEnv true) (_id sampleVideo)
              (emptyWorld {[_id sampleVideo := sampleVideo]})).1
    = [ErrorEvent (_id sampleVideo) "connection timed out"].
Proof.
  assert (H1 : findByIdFault (databaseDownEnv true)
                 (findCalls (emptyWorld {[_id sampleVideo := sampleVideo]}))
               = Some "connection timed out") by reflexivity.
  assert (H2 : hasErrorListener (databaseDownEnv true) = true) by reflexivity.
  split; [exact H1|]. split; [exact H2|].
  exact (proj2 (proj2 (lookup_rejected (databaseDownEnv true) (_id sampleVideo)
                         (emptyWorld {[_id sampleVideo := sampleVideo]}) _ H1 H2))).
Defined.



Lemma maintains_bind (I : World → Prop) {A B} (m : M A) (k : A → M B)
    (Q : A → Prop) (R : B → Prop) :
  maintains I m Q → (∀ a, Q a → maintains I (k a) R) → maintains I (bind m k) R.
Proof.
  intros Hm Hk w Hw. unfold bind. destruct (Hm w Hw) as [Hw' Hr].
  destruct (m w) as [w' [e|a]]; simpl in *; [done|]. by apply Hk.
Qed.

Lemma maintains_tryCatch (I : World → Prop) {A} (m : M A) (h : string → M A)
    (Q R : A → Prop) :
  maintains I m Q → (∀ a, Q a → R a) → (∀ e, maintains I (h e) R) →
  maintains I (tryCatch m h) R.
Proof.
  intros Hm HQ Hh w Hw. unfold tryCatch. destruct (Hm w Hw) as [Hw' Hr].
  destruct (m w) as [w' [e|a]]; simpl in *; [by apply Hh|]. split; [done|by apply HQ].
Qed.

Lemma maintains_ret (I : World → Prop) {A} (a : A) : maintains I (ret a) (λ _, True).
Proof. by intros w Hw. Qed.

(** The job body maintains every invariant that its primitive steps
    maintain. *)
Section JobInvariant.
Variable env : Env.
Variable videoId : string.
Variable I : World → Prop.
Variable P : Video → Prop.
Hypothesis P_status : ∀ st v, P v → P (set_status st v).
Hypothesis P_error : ∀ e v, P v → P (set_processingError e v).
Hypothesis P_result : ∀ md th sens fl v, P v → P (applyResult md th sens fl v).
Hypothesis I_logLine : ∀ l, maintains I (logLine l) (λ _, True).
Hypothesis I_findById :
  maintains I (findById env videoId) (λ found, ∀ v, found = Some v → P v).
Hypothesis I_save : ∀ v, P v → maintains I (save env v) (λ _, True).
Hypothesis I_status :
  ∀ u st sens fl, maintains I (emitProcessingStatus env u videoId st sens fl) (λ _, True).
Hypothesis I_progress :
  ∀ u pc, maintains I (emitProcessingProgress env u videoId pc) (λ _, True).
Hypothesis I_error :
  ∀ u e, maintains I (emitProcessingError env u videoId e) (λ _, True).
Hypothesis I_event : ∀ e, maintains I (emitEvent e) (λ _, True).
Hypothesis I_errorEvent : ∀ e, maintains I (emitErrorEvent env videoId e) (λ _, True).
Hypothesis I_processVideo : ∀ v, maintains I (processVideo env v) (λ _, True).

Ltac next step := eapply maintains_bind; [apply step|intros ? _].
Ltac next_save := eapply maintains_bind; [apply I_save; auto|intros ? _].

Lemma processJob_maintains : maintains I (processJob env videoId) (λ _, True).
Proof.
  unfold processJob. next I_logLine.
  eapply maintains_tryCatch with (Q := λ _, True); [|done|].
  - eapply maintains_bind; [apply I_findById|]. intros [video|] Hfound; [|apply I_logLine].
    specialize (Hfound video eq_refl).
    next_save. next I_status. next I_progress. next I_progress.
    eapply maintains_bind; [apply I_processVideo|]. intros result _.
    next I_progress.
    destruct result as [md thumbnail fileId sens sensFlags|error].
    + next_save. next I_progress. next I_status. next I_logLine. apply I_event.
    + next_save. next I_error. next I_status. next I_logLine. apply I_event.
  - intros error. next I_logLine.
    eapply maintains_bind with (Q := λ _, True); [|intros ? _; apply I_errorEvent].
    eapply maintains_tryCatch with (Q := λ _, True); [|done|intros ?; apply I_logLine].
    eapply maintains_bind; [apply I_findById|]. intros [video|] Hfound; [|apply maintains_ret].
    specialize (Hfound video eq_refl).
    next_save. next I_error. apply I_status.
Qed.

End JobInvariant.

(** X24. Without a socket server attached ([this.io] is null) the job
    body pushes no notification at all, on any path. *)
Theorem no_socket_no_notification env videoId w :
  io env = false →
  notifications (processJob env videoId w).1 = notifications w.
Proof.
  intros Hio.
  pose (I := λ w' : World, notifications w' = notifications w).
  assert (H : maintains I (processJob env videoId) (λ _, True)).
  { apply processJob_maintains with (P := λ _, True); subst I; simpl; try done.
    - intros w' Hw'. unfold findById. by destruct (findByIdFault env (findCalls w')).
    - intros v _ w' Hw'. unfold save. by destruct (saveFault env (saveCalls w')).
    - intros u st sens fl w' Hw'. unfold emitProcessingStatus. by rewrite Hio.
    - intros u pc w' Hw'. unfold emitProcessingProgress. by rewrite Hio.
    - intros u e w' Hw'. unfold emitProcessingError. by rewrite Hio.
    - intros e w' Hw'. unfold emitErrorEvent. by destruct (hasErrorListener env).
    - intros v w' Hw'. split; [|by destruct (processVideo env v w').2].
      destruct (processVideo_total env v) as (ls & cs & r & _ & Hv). by rewrite Hv. }
  by destruct (H w eq_refl).
Qed.

Lemma no_socket_no_notification_witness :
  io noSocketEnv = false
  ∧ notifications (processJob noSocketEnv (_id sampleVideo)
                     (emptyWorld {[_id sampleVideo := sampleVideo]})).1 = [].
Proof.
  assert (H : io noSocketEnv = false) by reflexivity.
  split; [exact H|].
  exact (no_socket_no_notification noSocketEnv (_id sampleVideo)
           (emptyWorld {[_id sampleVideo := sampleVideo]}) H).
Defined.

(** X25. The job body writes to the record of its own id only: in a store
    that files every record under its id, every other record is left as it
    was, on any path, and the store still files every record under its
    id. *)
Theorem other_records_untouched env videoId w :
  filedById (store w) →
  filedById (store (processJob env videoId w).1)
  ∧ ∀ k, k ≠ videoId → store (processJob env videoId w).1 !! k = store w !! k.
Proof.
  intros Hfiled.
  pose (I := λ w' : World,
          filedById (store w') ∧ ∀ k, k ≠ videoId → store w' !! k = store w !! k).
  assert (H : maintains I (processJob env videoId) (λ _, True)).
  { apply processJob_maintains with (P := λ v, _id v = videoId); subst I; simpl; try done.
    - intros w' [Hf Hk]. unfold findById.
      destruct (findByIdFault env (findCalls w')); simpl; [done|].
      split; [done|]. intros v Hv. by apply Hf.
    - intros v Hv w' [Hf Hk]. unfold save.
      destruct (saveFault env (saveCalls w')); simpl; [done|].
      split; [|done]. rewrite Hv. split.
      + intros k v'. destruct (decide (k = videoId)) as [->|Hne].
        * rewrite lookup_insert_eq. by intros [= <-].
        * rewrite lookup_insert_ne by done. apply Hf.
      + intros k Hne. rewrite lookup_insert_ne by done. by apply Hk.
    - intros u st sens fl w' Hw'. unfold emitProcessingStatus, bind, notify, logLine.
      by destruct (io env).
    - intros u pc w' Hw'. unfold emitProcessingProgress, bind, notify, logLine.
      by destruct (io env).
    - intros u e w' Hw'. unfold emitProcessingError, bind, notify, logLine.
      by destruct (io env).
    - intros e w' Hw'. unfold emitErrorEvent. by destruct (hasErrorListener env).
    - intros v w' Hw'. split; [|by destruct (processVideo env v w').2].
      destruct (processVideo_total env v) as (ls & cs & r & _ & Hv). by rewrite Hv. }
  destruct (H w) as [[Hf Hk] _]; [by split|]. by split.
Qed.

Lemma other_records_untouched_witness :
  filedById (store (emptyWorld {[_id sampleVideo := sampleVideo]}))
  ∧ filedById (store (processJob (sampleEnv 60) (_id sampleVideo)
                        (emptyWorld {[_id sampleVideo := sampleVideo]})).1).
Proof.
  assert (H : filedById (store (emptyWorld {[_id sampleVideo := sampleVideo]}))).
  { intros k v. simpl. intros [<- <-]%lookup_singleton_Some. reflexivity. }
  split; [exact H|].
  exact (proj1 (other_records_untouched (sampleEnv 60) (_id sampleVideo)
                  (emptyWorld {[_id sampleVideo := sampleVideo]}) H)).
Defined.

(** X26. When saving the status [processing] is rejected, the video is
    not processed; the record is read again and saved as failed with the
    message of the rejection, and the owner is sent the error and the status
    [failed], nothing else. *)
Theorem first_save_rejected env videoId video w e :
  io env = true →
  findByIdFault env (findCalls w) = None →
  store w !! videoId = Some video →
  _id video = videoId →
  saveFault env (saveCalls w) = Some e →
  findByIdFault env (S (findCalls w)) = None →
  saveFault env (S (saveCalls w)) = None →
  store (processJob env videoId w).1 !! videoId
    = Some (set_processingError e (set_status Failed video))
  ∧ calls (processJob env videoId w).1 = calls w
  ∧ notifications (processJob env videoId w).1
    = (notifications w
       ++ [ErrorMsg ("user:" ++ ownerUserId video) videoId e;
           StatusMsg ("user:" ++ ownerUserId video) videoId Failed None []])%list.
Proof.
  intros Hio Hfind1 Hstore Hid Hsave1 Hfind2 Hsave2.
  unfold_job. simpl. rewrite Hfind1, Hstore. simpl. rewrite Hsave1. simpl.
  rewrite Hfind2, Hstore. simpl. rewrite Hsave2, Hio. simpl.
  rewrite Hid.
  destruct (hasErrorListener env); simpl;
    rewrite lookup_insert_eq, <- !app_assoc; done.
Qed.

Lemma first_save_rejected_witness :
  io saveFailsEnv = true
  ∧ saveFault saveFailsEnv (saveCalls (emptyWorld {[_id sampleVideo := sampleVideo]}))
    = Some "write conflict"
  ∧ store (processJob saveFailsEnv (_id sampleVideo)
             (emptyWorld {[_id sampleVideo := sampleVideo]})).1 !! _id sampleVideo
    = Some (set_processingError "write conflict" (set_status Failed sampleVideo)).
Proof.
  assert (H1 : io saveFailsEnv = true) by reflexivity.
  assert (H2 : saveFault saveFailsEnv
                 (saveCalls (emptyWorld {[_id sampleVideo := sampleVideo]}))
               = Some "write conflict") by reflexivity.
  assert (Hstore : store (emptyWorld {[_id sampleVideo := sampleVideo]}) !! _id sampleVideo
                   = Some sampleVideo) by (vm_compute; reflexivity).
  split; [exact H1|]. split; [exact H2|].
  exact (proj1 (first_save_rejected saveFailsEnv (_id sampleVideo) sampleVideo
                  (emptyWorld {[_id sampleVideo := sampleVideo]}) "write conflict"
                  H1 eq_refl Hstore eq_refl H2 eq_refl eq_refl)).
Defined.

(** X27. The successful run: with a socket server attached, a record that
    is found and saved, and a [processVideo] that resolves to a success, the
    record is stored as ready with the derived fields of the result, the
    owner is sent status processing, progress 0, 25, 75 and 100 and status
    ready with the level and the flags, in this order, and the queue emits
    one [success] event. *)
Theorem successful_run env videoId video w md thumbnail fileId sens sensFlags :
  io env = true →
  findByIdFault env (findCalls w) = None →
  store w !! videoId = Some video →
  _id video = videoId →
  saveFault env (saveCalls w) = None →
  saveFault env (S (saveCalls w)) = None →
  (processVideo env (set_status InProcessing video) (emptyWorld ∅)).2
    = inr (Success md thumbnail fileId sens sensFlags) →
  (processJob env videoId w).2 = inr tt
  ∧ store (processJob env videoId w).1 !! videoId
    = Some (applyResult md thumbnail sens sensFlags (set_status InProcessing video))
  ∧ notifications (processJob env videoId w).1
    = (notifications w
       ++ [StatusMsg ("user:" ++ ownerUserId video) videoId InProcessing None [];
           ProgressMsg ("user:" ++ ownerUserId video) videoId 0;
           ProgressMsg ("user:" ++ ownerUserId video) videoId 25;
           ProgressMsg ("user:" ++ ownerUserId video) videoId 75;
           ProgressMsg ("user:" ++ ownerUserId video) videoId 100;
           StatusMsg ("user:" ++ ownerUserId video) videoId Ready (Some sens) sensFlags])%list
  ∧ events (processJob env videoId w).1
    = (events w ++ [SuccessEvent videoId (Success md thumbnail fileId sens sensFlags)])%list.
Proof.
  intros Hio Hfind Hstore Hid Hsave1 Hsave2 Hok.
  unfold_job. simpl. rewrite Hfind, Hstore, Hio. simpl. rewrite Hsave1. simpl.
  rewrite processVideo_frame, Hok. simpl. rewrite Hsave2. simpl.
  rewrite Hid, lookup_insert_eq, <- !app_assoc. done.
Qed.

Lemma successful_run_witness :
  io (sampleEnv 60) = true
  ∧ (processVideo (sampleEnv 60) (set_status InProcessing sampleVideo) (emptyWorld ∅)).2
    = inr (Success
             (mkResultMetadata 60 (mkResolution 1920 1080) "h264"
                "mov,mp4,m4a,3gp,3g2,mj2" 1300000 true)
             "thumb-1700000000000-holiday.jpg" "65a1f0c2e4b0a1b2c3d4e5f7"
             Media.Safe [])
  ∧ (processJob (sampleEnv 60) (_id sampleVideo)
       (emptyWorld {[_id sampleVideo := sampleVideo]})).2 = inr tt.
Proof.
  assert (H1 : io (sampleEnv 60) = true) by reflexivity.
  assert (Hok : (processVideo (sampleEnv 60) (set_status InProcessing sampleVideo)
                   (emptyWorld ∅)).2
                = inr (Success
                         (mkResultMetadata 60 (mkResolution 1920 1080) "h264"
                            "mov,mp4,m4a,3gp,3g2,mj2" 1300000 true)
                         "thumb-1700000000000-holiday.jpg" "65a1f0c2e4b0a1b2c3d4e5f7"
                         Media.Safe []))
    by (vm_compute; reflexivity).
  assert (Hstore : store (emptyWorld {[_id sampleVideo := sampleVideo]}) !! _id sampleVideo
                   = Some sampleVideo) by (vm_compute; reflexivity).
  split; [exact H1|]. split; [exact Hok|].
  exact (proj1 (successful_run (sampleEnv 60) (_id sampleVideo) sampleVideo
                  (emptyWorld {[_id sampleVideo := sampleVideo]}) _ _ _ _ _
                  H1 eq_refl Hstore eq_refl eq_refl eq_refl Hok)).
Defined.

End JobBodyOutcomes.
